(** * A bit-banged I2C master over an MPSSE command stream (ftdi/i2c.go)

    Shallow embedding of the [i2cBus] methods of package [ftdi]: the signal
    sequencer ([setI2CLinesIdle], [setI2CStart], [setI2CStop],
    [setI2CWriteBytes], [setI2CReadBytes]), the transaction builder ([Tx]),
    the executor ([transactionEnd]) and the clock and mode switches
    ([SetSpeed], [setupI2C], [stopI2C], [Close]).

    Conventions.
    - A Go [byte] is a [Z] in [0, 256); a [uint16] is a [Z] in [0, 65536);
      conversions that truncate are written out with [mod].
    - Go [int] values (slice lengths, loop counters) are unbounded [Z]: every
      such value here is a sum of slice lengths.
    - A [physic.Frequency] is an [int64] counting micro-hertz; its
      multiplication wraps ([wrap64]).
    - The handle [d.f.h] is the only way the methods reach the adapter.  Its
      calls are recorded in order, and what the adapter answers is a function
      [env] of the calls made so far.
    - The mutex [d.f.mu] is not modelled: a method body runs from entry to
      exit without interleaving. *)

From stdpp Require Import base list numbers.

Local Open Scope Z_scope.

(** ** Bytes and words *)

Definition byte_of (x : Z) : Z := x mod 256.
Definition uint16_of (x : Z) : Z := x mod 65536.

(** Two's-complement wrap-around of an [int64] result. *)
Definition wrap64 (x : Z) : Z := (x + 2 ^ 63) mod 2 ^ 64 - 2 ^ 63.

(** ** Constants *)

(** [const i2cSCL = 1], [i2cSDAOut = 2], [i2cSDAIn = 4]: pins D0, D1, D2. *)
Definition i2cSCL : Z := 1.
Definition i2cSDAOut : Z := 2.
Definition i2cSDAIn : Z := 4.

(** The MPSSE opcodes are declared in the package's mpsse.go, which is not
    among the sources; every definition below takes them as a parameter. *)
Record Opcodes := {
  dataOut : Z;
  dataIn : Z;
  dataOutFall : Z;
  dataBit : Z;
  dataTristate : Z;
  gpioSetD : Z;
  internalLoopbackDisable : Z;
  clock30MHz : Z;
  clockSetDivisor : Z;
  clock3Phase : Z;
  clock2Phase : Z;
  clockNormal : Z;
  flush : Z
}.

(** The values the comments of i2c.go note beside their uses (0x8A, 0x97,
    0x8C, 0x9E, 0x85, 0x80, 0x20, 0x13 = dataOut|dataOutFall|dataBit,
    0x22 = dataIn|dataBit).  The FTDI command set (AN_108) gives the split
    of 0x13 into its three flags and the three opcodes the comments leave
    out (0x86, 0x8D, 0x87).  Used only to run the definitions on concrete
    inputs. *)
Definition ft232h : Opcodes := {|
  dataOut := 0x10;
  dataIn := 0x20;
  dataOutFall := 0x01;
  dataBit := 0x02;
  dataTristate := 0x9E;
  gpioSetD := 0x80;
  internalLoopbackDisable := 0x85;
  clock30MHz := 0x8A;
  clockSetDivisor := 0x86;
  clock3Phase := 0x8C;
  clock2Phase := 0x8D;
  clockNormal := 0x97;
  flush := 0x87
|}.

(** [physic.Frequency] units of periph.io/x/conn/v3/physic: an [int64]
    number of micro-hertz. *)
Module physic.

Definition MicroHertz : Z := 1.
Definition MilliHertz : Z := 1000 * MicroHertz.
Definition Hertz : Z := 1000 * MilliHertz.
Definition KiloHertz : Z := 1000 * Hertz.
Definition MegaHertz : Z := 1000 * KiloHertz.

End physic.

(** ** Errors *)

(** One constructor per error value the methods create, plus the errors the
    handle returns, which are passed on as they are. *)
Inductive error :=
  | ErrSpeedTooHigh (f : Z)  (* "d2xx: invalid speed %s; maximum supported clock is 10MHz" *)
  | ErrSpeedTooLow (f : Z)   (* "d2xx: invalid speed %s; minimum supported clock is 100Hz; ..." *)
  | ErrPullUp                (* "d2xx: PullUp will soon be implemented" *)
  | ErrGotNAK                (* "got NAK" *)
  | ErrHandle (code : Z).    (* any error returned by d.f.h *)

Inductive error_kind := OutOfRange | Unsupported | NakReceived | TransportError.

(** The error kinds of the specification, section 7. *)
Definition kind_of (e : error) : error_kind :=
  match e with
  | ErrSpeedTooHigh _ | ErrSpeedTooLow _ => OutOfRange
  | ErrPullUp => Unsupported
  | ErrGotNAK => NakReceived
  | ErrHandle _ => TransportError
  end.

(** ** The adapter handle *)

Inductive call :=
  | Flush
  | Write (bs : list Z)
  | ReadAll (n : Z)
  | MPSSEClock (f : Z).

Inductive reply :=
  | Done (data : list Z)
  | Fail (code : Z).

(** ** Bus state and the method monad *)

(** The fields of [i2cBus] and of the [FT232H] behind [d.f] that the methods
    use: [d.f.dbus.direction], [d.f.usingI2C], [d.pullUp], and the calls made
    on [d.f.h] so far. *)
Record i2cBus := {
  direction : Z;
  usingI2C : bool;
  pullUp : bool;
  h : list call
}.

Definition set_direction (v : Z) (d : i2cBus) : i2cBus :=
  {| direction := v; usingI2C := usingI2C d; pullUp := pullUp d; h := h d |}.
Definition set_usingI2C (v : bool) (d : i2cBus) : i2cBus :=
  {| direction := direction d; usingI2C := v; pullUp := pullUp d; h := h d |}.
Definition set_pullUp (v : bool) (d : i2cBus) : i2cBus :=
  {| direction := direction d; usingI2C := usingI2C d; pullUp := v; h := h d |}.
Definition set_h (v : list call) (d : i2cBus) : i2cBus :=
  {| direction := direction d; usingI2C := usingI2C d; pullUp := pullUp d; h := v |}.

(** A method either returns a value and the bus it leaves, or panics (an
    index out of range, a negative [make]). *)
Inductive outcome (A : Type) :=
  | Returns (a : A) (d : i2cBus)
  | Panics.
Arguments Returns {A} a d.
Arguments Panics {A}.

Definition M (A : Type) : Type := i2cBus → outcome A.

Definition ret {A} (a : A) : M A := λ d, Returns a d.
Definition bind {A B} (m : M A) (k : A → M B) : M B :=
  λ d, match m d with
       | Returns a d' => k a d'
       | Panics => Panics
       end.
Definition panic {A} : M A := λ _, Panics.
Definition get : M i2cBus := λ d, Returns d d.
Definition modify (g : i2cBus → i2cBus) : M unit := λ d, Returns tt (g d).

Global Instance M_ret : MRet M := @ret.
Global Instance M_bind : MBind M := λ A B k m, bind m k.

(** ** Slices *)

(** [s[i]] and [s[i] = v] with Go's bounds check: [None] stands for the
    run-time panic. *)
Definition index (s : list Z) (i : Z) : option Z :=
  if decide (0 ≤ i) then s !! Z.to_nat i else None.

Definition store (s : list Z) (i : Z) (v : Z) : option (list Z) :=
  if decide (0 ≤ i < Z.of_nat (length s)) then Some (<[Z.to_nat i := v]> s) else None.

Definition len (s : list Z) : Z := Z.of_nat (length s).

(** What a buffer of [n] zero bytes holds once the handle has put [data]
    into it: the buffer keeps its length. *)
Definition filled (n : nat) (data : list Z) : list Z :=
  take n (data ++ replicate n 0).

Section I2C.

Variable oc : Opcodes.
Variable env : list call → reply.

(** A call on [d.f.h]: recorded, and answered by the adapter. *)
Definition hcall (c : call) : M reply :=
  λ d, let hist := h d ++ [c] in Returns (env hist) (set_h hist d).

(** ** Signal sequencer *)

(** [const mask = 0xFF &^ (i2cSCL | i2cSDAOut | i2cSDAIn)] *)
Definition mask : Z := Z.ldiff 0xFF (Z.lor (Z.lor i2cSCL i2cSDAOut) i2cSDAIn).

Definition setI2CLinesIdle : M (list Z) :=
  d ← get;
  modify (set_direction
            (Z.lor (Z.lor (Z.land (direction d) mask) i2cSCL) i2cSDAOut)) ;;
  d ← get;
  ret [ gpioSetD oc; Z.lor i2cSCL i2cSDAOut; direction d;
        gpioSetD oc; Z.lor i2cSCL i2cSDAOut; direction d;
        gpioSetD oc; Z.lor i2cSCL i2cSDAOut; direction d;
        gpioSetD oc; Z.lor i2cSCL i2cSDAOut; direction d ].

Definition setI2CStart : M (list Z) :=
  d ← get;
  let dir := direction d in
  ret [ gpioSetD oc; i2cSCL; dir;
        gpioSetD oc; i2cSCL; dir;
        gpioSetD oc; i2cSCL; dir;
        gpioSetD oc; i2cSCL; dir;
        gpioSetD oc; 0x00; dir;
        gpioSetD oc; 0x00; dir;
        gpioSetD oc; 0x00; dir;
        gpioSetD oc; 0x00; dir ].

Definition setI2CStop : M (list Z) :=
  d ← get;
  let dir := direction d in
  ret [ gpioSetD oc; 0x00; dir;
        gpioSetD oc; 0x00; dir;
        gpioSetD oc; 0x00; dir;
        gpioSetD oc; 0x00; dir;
        gpioSetD oc; i2cSCL; dir;
        gpioSetD oc; i2cSCL; dir;
        gpioSetD oc; i2cSCL; dir;
        gpioSetD oc; i2cSCL; dir;
        gpioSetD oc; Z.lor i2cSCL i2cSDAOut; dir;
        gpioSetD oc; Z.lor i2cSCL i2cSDAOut; dir;
        gpioSetD oc; Z.lor i2cSCL i2cSDAOut; dir;
        gpioSetD oc; Z.lor i2cSCL i2cSDAOut; dir ].

(** [for _, c := range w { cmdfull = append(cmdfull, cmd1...);
    cmdfull = append(cmdfull, c); cmdfull = append(cmdfull, cmd2...) }] *)
Definition setI2CWriteBytes (w : list Z) : M (list Z) :=
  d ← get;
  let dir := direction d in
  let cmd1 := [ Z.lor (dataOut oc) (dataOutFall oc); 0; 0 ] in
  let cmd2 := [ gpioSetD oc; i2cSDAOut; dir;
                gpioSetD oc; i2cSDAOut; dir;
                gpioSetD oc; i2cSDAOut; dir;
                gpioSetD oc; i2cSDAOut; dir;
                Z.lor (dataIn oc) (dataBit oc); 0 ] in
  ret (foldl (λ cmdfull c, ((cmdfull ++ cmd1) ++ [c]) ++ cmd2) [] w).

(** The loop [for iCnt := 0; iCnt < setCnt; iCnt++] with [k] iterations
    left. *)
Fixpoint readBytes_loop (cmd1 cmd2 : list Z) (setCnt : Z)
    (k : nat) (iCnt : Z) (cmdfull : list Z) : list Z :=
  match k with
  | O => cmdfull
  | S k' =>
      let cmdfull := cmdfull ++ cmd1 in
      let cmdfull :=
        if bool_decide (iCnt ≠ setCnt - 1)
        then cmdfull ++ [0x00]   (* ACK *)
        else cmdfull ++ [0xFF]   (* NAK *) in
      let cmdfull := cmdfull ++ cmd2 in
      readBytes_loop cmd1 cmd2 setCnt k' (iCnt + 1) cmdfull
  end.

Definition setI2CReadBytes (setCnt : Z) : M (list Z) :=
  d ← get;
  let dir := direction d in
  let cmd1 := [ dataIn oc; 0; 0;
                Z.lor (Z.lor (dataOut oc) (dataOutFall oc)) (dataBit oc); 0 ] in
  let cmd2 := [ gpioSetD oc; i2cSDAOut; dir ] in
  ret (readBytes_loop cmd1 cmd2 setCnt (Z.to_nat setCnt) 0 []).

(** [byte((uiAddr << 1) | 0x01)] and [byte((uiAddr << 1) & 0xFE)], the
    shift being a [uint16] one. *)
Definition address_byte (uiAddr : Z) (bRead : bool) : Z :=
  if bRead
  then byte_of (Z.lor (uint16_of (Z.shiftl uiAddr 1)) 0x01)
  else byte_of (Z.land (uint16_of (Z.shiftl uiAddr 1)) 0xFE).

(** ** Transaction executor *)

(** How a loop body leaves the loop: it falls out of it at the end, returns
    an error from the method, or panics. *)
Inductive flow (A : Type) :=
  | Continue (a : A)
  | Return (e : error)
  | Panic.
Arguments Continue {A} a.
Arguments Return {A} e.
Arguments Panic {A}.

(** [for iCnt = 0; iCnt < (readCnt - len(r)); iCnt++
      { if (readBuff[iCnt] & 0x01) != 0 { return errors.New("got NAK") } }]
    with [k] iterations left. *)
Fixpoint verify_acks (readBuff : list Z) (k : nat) (iCnt : Z) : flow unit :=
  match k with
  | O => Continue tt
  | S k' =>
      match index readBuff iCnt with
      | None => Panic
      | Some b =>
          if decide (Z.land b 0x01 ≠ 0) then Return ErrGotNAK
          else verify_acks readBuff k' (iCnt + 1)
      end
  end.

(** [for iCnt = 0; iCnt < len(r); iCnt++
      { r[iCnt] = readBuff[(readCnt - len(r)) + iCnt] }]
    with [k] iterations left. *)
Fixpoint set_recv (readBuff : list Z) (readCnt : Z) (k : nat) (iCnt : Z)
    (r : list Z) : flow (list Z) :=
  match k with
  | O => Continue r
  | S k' =>
      match index readBuff ((readCnt - len r) + iCnt) with
      | None => Panic
      | Some b =>
          match store r iCnt b with
          | None => Panic
          | Some r' => set_recv readBuff readCnt k' (iCnt + 1) r'
          end
      end
  end.

Definition err_of (rp : reply) : option error :=
  match rp with
  | Done _ => None
  | Fail code => Some (ErrHandle code)
  end.

(** The method returns the contents of the caller's slice [r] beside its
    error. *)
Definition transactionEnd (w : list Z) (readCnt : Z) (r : list Z)
    : M (list Z * option error) :=
  rp ← hcall Flush;
  match rp with
  | Fail code => ret (r, Some (ErrHandle code))
  | Done _ =>
      if decide (readCnt < 0) then panic   (* make([]byte, readCnt) *)
      else
        let cmdfull := ([] ++ w) ++ [flush oc] in
        rp ← hcall (Write cmdfull);
        match rp with
        | Fail code => ret (r, Some (ErrHandle code))
        | Done _ =>
            rp ← hcall (ReadAll readCnt);
            match rp with
            | Fail code => ret (r, Some (ErrHandle code))
            | Done data =>
                let readBuff := filled (Z.to_nat readCnt) data in
                match verify_acks readBuff (Z.to_nat (readCnt - len r)) 0 with
                | Panic => panic
                | Return e => ret (r, Some e)
                | Continue _ =>
                    match set_recv readBuff readCnt (length r) 0 r with
                    | Panic => panic
                    | Return e => ret (r, Some e)
                    | Continue r' => ret (r', None)
                    end
                end
            end
        end
  end.

(** ** Transaction builder *)

(** Lines 75 to 116 of [Tx]: the batch [cmdFull] and the count [iReadCnt]
    handed to [transactionEnd]. *)
Definition Tx_assemble (addr : Z) (w r : list Z) : M (list Z * Z) :=
  cmd ← setI2CStart;
  let cmdFull := [] ++ cmd in
  let byWrite := [] ++ [address_byte addr false] in
  let byWrite := if decide (len w ≠ 0) then byWrite ++ w else byWrite in
  cmd ← setI2CWriteBytes byWrite;
  let cmdFull := cmdFull ++ cmd in
  let iReadCnt := len byWrite in
  '(cmdFull, iReadCnt) ←
    (if decide (len r ≠ 0 ∧ len w ≠ 0) then
       cmd ← setI2CStop;
       let cmdFull := cmdFull ++ cmd in
       cmd ← setI2CLinesIdle;
       let cmdFull := cmdFull ++ cmd in
       cmd ← setI2CStart;
       let cmdFull := cmdFull ++ cmd in
       let byRead := [] ++ [address_byte addr true] in
       cmd ← setI2CWriteBytes byRead;
       let cmdFull := cmdFull ++ cmd in
       let iReadCnt := iReadCnt + len byRead in
       cmd ← setI2CReadBytes (len r);
       let cmdFull := cmdFull ++ cmd in
       let iReadCnt := iReadCnt + len r in
       ret (cmdFull, iReadCnt)
     else ret (cmdFull, iReadCnt));
  cmd ← setI2CStop;
  let cmdFull := cmdFull ++ cmd in
  ret (cmdFull, iReadCnt).

Definition Tx (addr : Z) (w r : list Z) : M (list Z * option error) :=
  '(cmdFull, iReadCnt) ← Tx_assemble addr w r;
  transactionEnd cmdFull iReadCnt r.

(** ** Clock and mode *)

Definition SetSpeed (f : Z) : M (option error) :=
  if decide (f > 10 * physic.MegaHertz) then ret (Some (ErrSpeedTooHigh f))
  else if decide (f < 100 * physic.Hertz) then ret (Some (ErrSpeedTooLow f))
  else
    rp ← hcall (MPSSEClock (Z.quot (wrap64 (f * 2)) 3));
    ret (err_of rp).

(** [clk := ((30 * physic.MegaHertz / f) - 1) * 2 / 3] with
    [f := 400 * physic.KiloHertz]. *)
Definition setup_clk : Z :=
  let f := 400 * physic.KiloHertz in
  Z.quot (wrap64 ((Z.quot (30 * physic.MegaHertz) f - 1) * 2)) 3.

Definition setupI2C (pullUp : bool) : M (option error) :=
  if pullUp then ret (Some ErrPullUp)
  else
    let clk := setup_clk in
    let cmd := [] ++ [ clock30MHz oc; clockNormal oc; clock3Phase oc;
                       dataTristate oc; 0x07; 0x00;
                       internalLoopbackDisable oc ] in
    let cmd := cmd ++ [ clockSetDivisor oc; byte_of clk;
                        byte_of (Z.shiftr clk 8) ] in
    rp ← hcall (Write cmd);
    match rp with
    | Fail code => ret (Some (ErrHandle code))
    | Done _ =>
        modify (set_usingI2C true) ;;
        modify (set_pullUp pullUp) ;;
        cmd ← setI2CLinesIdle;
        let cmd := cmd ++ [flush oc] in
        rp ← hcall (Write cmd);
        match rp with
        | Fail code => ret (Some (ErrHandle code))
        | Done _ => ret None
        end
    end.

Definition stopI2C : M (option error) :=
  d ← get;
  let cmd := [ clock2Phase oc; clock30MHz oc; 0; 0 ] in
  let cmd := if negb (pullUp d) then cmd ++ [ dataTristate oc; 0; 0 ] else cmd in
  rp ← hcall (Write cmd);
  modify (set_usingI2C false) ;;
  ret (err_of rp).

Definition Close : M (option error) := stopI2C.

(** ** Reading a batch back as operations *)

(** The five commands the sequencer emits.  A length operand is the length
    minus one, so the zeros stand for one byte or one bit. *)
Inductive op :=
  | SetPins (value dir : Z)  (* gpioSetD, value, direction *)
  | ShiftOut8 (c : Z)        (* dataOut|dataOutFall, 0, 0, c *)
  | ShiftIn1                 (* dataIn|dataBit, 0 *)
  | ShiftIn8                 (* dataIn, 0, 0 *)
  | ShiftOut1 (c : Z).       (* dataOut|dataOutFall|dataBit, 0, c *)

Definition op_out8 : Z := Z.lor (dataOut oc) (dataOutFall oc).
Definition op_in1 : Z := Z.lor (dataIn oc) (dataBit oc).
Definition op_in8 : Z := dataIn oc.
Definition op_out1 : Z := Z.lor (Z.lor (dataOut oc) (dataOutFall oc)) (dataBit oc).

Definition encode (o : op) : list Z :=
  match o with
  | SetPins v dir => [gpioSetD oc; v; dir]
  | ShiftOut8 c => [op_out8; 0; 0; c]
  | ShiftIn1 => [op_in1; 0]
  | ShiftIn8 => [op_in8; 0; 0]
  | ShiftOut1 c => [op_out1; 0; c]
  end.

Fixpoint decode (bs : list Z) : option (list op) :=
  match bs with
  | [] => Some []
  | o :: bs1 =>
      if decide (o = gpioSetD oc) then
        match bs1 with
        | v :: dir :: tl => cons (SetPins v dir) <$> decode tl
        | _ => None
        end
      else if decide (o = op_out8) then
        match bs1 with
        | l0 :: l1 :: c :: tl =>
            if decide (l0 = 0 ∧ l1 = 0) then cons (ShiftOut8 c) <$> decode tl
            else None
        | _ => None
        end
      else if decide (o = op_in1) then
        match bs1 with
        | l0 :: tl =>
            if decide (l0 = 0) then cons ShiftIn1 <$> decode tl else None
        | _ => None
        end
      else if decide (o = op_in8) then
        match bs1 with
        | l0 :: l1 :: tl =>
            if decide (l0 = 0 ∧ l1 = 0) then cons ShiftIn8 <$> decode tl
            else None
        | _ => None
        end
      else if decide (o = op_out1) then
        match bs1 with
        | l0 :: c :: tl =>
            if decide (l0 = 0) then cons (ShiftOut1 c) <$> decode tl else None
        | _ => None
        end
      else None
  end.

(** The decoder tells the five commands apart by their first byte. *)
Definition distinct_opcodes : Prop :=
  NoDup [gpioSetD oc; op_out8; op_in1; op_in8; op_out1].

(** The adapter answers one byte per shift-in command. *)
Definition shifts_in (o : op) : bool :=
  match o with
  | ShiftIn1 | ShiftIn8 => true
  | _ => false
  end.

Definition is_ack_check (o : op) : bool :=
  match o with ShiftIn1 => true | _ => false end.

Definition is_read (o : op) : bool :=
  match o with ShiftIn8 | ShiftOut1 _ => true | _ => false end.

Definition count (p : op → bool) (ops : list op) : Z :=
  Z.of_nat (length (List.filter p ops)).

(** ** The sequencer in the words of the specification (section 4.2) *)

Definition encode_all (ops : list op) : list Z := flat_map encode ops.

(** Direction mask after idling: clock and data driven, D2 an input, D3 to
    D7 as they were. *)
Definition idle_direction (dir : Z) : Z :=
  Z.lor (Z.lor (Z.land dir mask) i2cSCL) i2cSDAOut.

(** Idle: four times "clock high, data high". *)
Definition idle_ops (dir : Z) : list op :=
  replicate 4 (SetPins (Z.lor i2cSCL i2cSDAOut) dir).

(** Start: four times "clock high, data low", then four times "clock low,
    data low". *)
Definition start_ops (dir : Z) : list op :=
  replicate 4 (SetPins i2cSCL dir) ++ replicate 4 (SetPins 0 dir).

(** Stop: four times "clock low, data low", four times "clock high, data
    low", four times "clock high, data high". *)
Definition stop_ops (dir : Z) : list op :=
  replicate 4 (SetPins 0 dir) ++ replicate 4 (SetPins i2cSCL dir)
  ++ replicate 4 (SetPins (Z.lor i2cSCL i2cSDAOut) dir).

(** Write-byte-with-ack: shift the byte out, release the data line, shift
    one bit in. *)
Definition write_frame (dir : Z) (c : Z) : list op :=
  ShiftOut8 c :: replicate 4 (SetPins i2cSDAOut dir) ++ [ShiftIn1].

Definition write_ops (dir : Z) (bs : list Z) : list op :=
  flat_map (write_frame dir) bs.

(** The byte whose bit the master drives after each of [n] bytes read:
    0x00 (ACK) for all but the last, 0xFF (NAK) for the last. *)
Definition master_acks (n : nat) : list Z :=
  match n with
  | O => []
  | S n' => replicate n' 0x00 ++ [0xFF]
  end.

(** Read-byte-with-ack-generation: shift eight bits in, then drive one
    bit. *)
Definition read_frame (dir : Z) (a : Z) : list op :=
  [ShiftIn8; ShiftOut1 a; SetPins i2cSDAOut dir].

Definition read_ops (dir : Z) (n : nat) : list op :=
  flat_map (read_frame dir) (master_acks n).

(** The bit a one-bit shift-out drives: the adapter shifts the most
    significant bit first. *)
Definition driven_bit (c : Z) : bool := Z.testbit c 7.

(** The bits the master drives, in order. *)
Definition driven_bits (ops : list op) : list bool :=
  flat_map (λ o, match o with ShiftOut1 c => [driven_bit c] | _ => [] end) ops.

(** ** Vocabulary of the statements *)

(** The response-byte counter of the transaction builder (section 4.3):
    [1 + len w] for the write phase, and [1 + len r] more when the read
    phase is taken. *)
Definition response_count (w r : list Z) : Z :=
  (1 + len w) + (if decide (w ≠ [] ∧ r ≠ []) then 1 + len r else 0).

(** The handle accepts the flush and the batch, and answers the read of [n]
    bytes with [data]. *)
Definition delivers (hist : list call) (batch : list Z) (n : Z)
    (data : list Z) : Prop :=
  err_of (env (hist ++ [Flush])) = None
  ∧ err_of (env ((hist ++ [Flush]) ++ [Write (batch ++ [flush oc])])) = None
  ∧ env (((hist ++ [Flush]) ++ [Write (batch ++ [flush oc])]) ++ [ReadAll n])
    = Done data.

(** The calls a transaction adds to the history. *)
Definition transaction_calls (batch : list Z) (n : Z) : list call :=
  [Flush; Write (batch ++ [flush oc]); ReadAll n].

(** Bit 0 of a response byte: the NAK flag. *)
Definition nak (b : Z) : bool := Z.testbit b 0.

(** The acknowledgment region [0 .. readCnt - len r) of a response holds a
    NAK. *)
Definition nak_in_region (resp : list Z) (readCnt : Z) (r : list Z) : Prop :=
  ∃ i b, 0 ≤ i < readCnt - len r ∧ index resp i = Some b ∧ nak b = true.

Definition region_acked (resp : list Z) (readCnt : Z) (r : list Z) : Prop :=
  ∀ i b, 0 ≤ i < readCnt - len r → index resp i = Some b → nak b = false.

(** The bytes [stopI2C] writes. *)
Definition stop_cmd (pullUp : bool) : list Z :=
  [clock2Phase oc; clock30MHz oc; 0; 0]
  ++ (if pullUp then [] else [dataTristate oc; 0; 0]).

(** The bytes [setupI2C] writes first. *)
Definition setup_cmd (divisor : Z) : list Z :=
  [ clock30MHz oc; clockNormal oc; clock3Phase oc; dataTristate oc; 0x07; 0x00;
    internalLoopbackDisable oc; clockSetDivisor oc ]
  ++ Z_to_little_endian 2 8 divisor.

(** ** Fixtures for running the model *)

(** An adapter that gives the same answer to every call. *)
Definition env_const (rp : reply) : list call → reply := λ _, rp.

(** An adapter that accepts the first [n] calls and fails every later one
    with error code 5, as one unplugged at that point would. *)
Definition env_unplugged (n : nat) : list call → reply :=
  λ hist, if (length hist <=? n)%nat then Done [] else Fail 5.

(** A failed read that leaves the slice as it was. *)
Definition torn_nothing : list call → list Z → list Z := λ _ r, r.

(** The batch an assembly returned. *)
Definition batch_of (o : outcome (list Z * Z)) : list Z :=
  match o with
  | Returns (batch, _) _ => batch
  | Panics => []
  end.

(** A bus as [setupI2C] leaves it: D0 and D1 outputs, no call made yet. *)
Definition bus0 : i2cBus :=
  {| direction := 0x03; usingI2C := true; pullUp := false; h := [] |}.

(** ** The byte transfers outside [Tx] *)

(** What a failed [ReadAll] leaves in the caller's slice is the handle's
    business; [torn hist r] stands for it, [hist] being the calls made up to
    and including the failed one. *)
Variable torn : list call → list Z → list Z.

(** What a slice holds once the handle has put [data] at its start. *)
Definition overwritten (s : list Z) (data : list Z) : list Z :=
  take (length s) (data ++ drop (length data) s).

(** [for _, rcv := range readBuff
      { if (rcv & 0x01) != 0 { return errors.New("got NAK") } }] *)
Fixpoint range_acks (readBuff : list Z) : option error :=
  match readBuff with
  | [] => None
  | rcv :: rest =>
      if decide (Z.land rcv 0x01 ≠ 0) then Some ErrGotNAK
      else range_acks rest
  end.

(** [value] stands for the field [d.f.dbus.value], which the method reads
    and no method of the file assigns. *)
Definition writeBytes (value : Z) (w : list Z) : M (option error) :=
  d ← get;
  let dir := direction d in
  let v := value in
  rp ← hcall Flush;
  match rp with
  | Fail code => ret (Some (ErrHandle code))
  | Done _ =>
      let cmd1 := [ Z.lor (dataOut oc) (dataOutFall oc); 0; 0 ] in
      let cmd2 := [ gpioSetD oc; Z.lor v i2cSDAOut; dir;
                    gpioSetD oc; Z.lor v i2cSDAOut; dir;
                    gpioSetD oc; Z.lor v i2cSDAOut; dir;
                    gpioSetD oc; Z.lor v i2cSDAOut; dir;
                    Z.lor (dataIn oc) (dataBit oc); 0 ] in
      let cmd3 := [ flush oc ] in
      let cmdfull :=
        foldl (λ cmdfull c, ((cmdfull ++ cmd1) ++ [c]) ++ cmd2) [] w in
      let cmdfull := cmdfull ++ cmd3 in
      rp ← hcall (Write cmdfull);
      match rp with
      | Fail code => ret (Some (ErrHandle code))
      | Done _ =>
          rp ← hcall (ReadAll (len w));
          match rp with
          | Fail code => ret (Some (ErrHandle code))
          | Done data => ret (range_acks (filled (length w) data))
          end
      end
  end.

(** The loop [for iCnt := range r] has the body of the loop of
    [setI2CReadBytes], with [len(r)] for [setCnt]. *)
Definition readBytes (value : Z) (r : list Z) : M (list Z * option error) :=
  d ← get;
  let dir := direction d in
  let v := value in
  let cmd1 := [ Z.lor (dataIn oc) (dataBit oc); 7;
                Z.lor (Z.lor (dataOut oc) (dataOutFall oc)) (dataBit oc); 0 ] in
  let cmd2 := [ gpioSetD oc; Z.lor (Z.lor v i2cSCL) i2cSDAOut; dir ] in
  let cmd3 := [ flush oc ] in
  let cmdfull := readBytes_loop cmd1 cmd2 (len r) (length r) 0 [] in
  let cmdfull := cmdfull ++ cmd3 in
  rp ← hcall (Write cmdfull);
  match rp with
  | Fail code => ret (r, Some (ErrHandle code))
  | Done _ =>
      rp ← hcall (ReadAll (len r));
      d ← get;
      match rp with
      | Fail code => ret (torn (h d) r, Some (ErrHandle code))
      | Done data => ret (overwritten r data, None)
      end
  end.

(** ** Vocabulary of the further statements *)

(** A direction mask that idling leaves as it is. *)
Definition normalized (dir : Z) : Prop := idle_direction dir = dir.

(** Number of bytes of the batch of a transaction. *)
Definition batch_length (w r : list Z) : Z :=
  78 + 18 * len w + (if decide (w ≠ [] ∧ r ≠ []) then 90 + 9 * len r else 0).

(** The frame [writeBytes] emits for one byte. *)
Definition legacy_write_frame (value dir c : Z) : list Z :=
  [op_out8; 0; 0; c]
  ++ mjoin (replicate 4 [gpioSetD oc; Z.lor value i2cSDAOut; dir])
  ++ [op_in1; 0].

(** The frame [readBytes] emits for one byte: eight bits shifted in in bit
    mode, one bit driven, and the lines released with the clock high. *)
Definition legacy_read_frame (value dir a : Z) : list Z :=
  [op_in1; 7; op_out1; 0; a;
   gpioSetD oc; Z.lor (Z.lor value i2cSCL) i2cSDAOut; dir].

(** The response holds a NAK among its first [n] bytes. *)
Definition nak_among (n : nat) (data : list Z) : Prop :=
  Exists (λ b, nak b = true) (filled n data).

(** A set-pins command drives no pin above D1 high and carries one of the
    direction masks [dirs]; any other command passes. *)
Definition pins_within (dirs : list Z) (o : op) : Prop :=
  match o with
  | SetPins value dir => 0 ≤ value < 4 ∧ dir ∈ dirs
  | _ => True
  end.

(** ** Proofs: the sequencer *)

Ltac run :=
  cbv [mbind M_bind mret M_ret bind ret get modify panic hcall].

Lemma setI2CLinesIdle_ops d :
  setI2CLinesIdle d =
  Returns (encode_all (idle_ops (idle_direction (direction d))))
          (set_direction (idle_direction (direction d)) d).
Proof. reflexivity. Qed.

Lemma setI2CStart_ops d :
  setI2CStart d = Returns (encode_all (start_ops (direction d))) d.
Proof. reflexivity. Qed.

Lemma setI2CStop_ops d :
  setI2CStop d = Returns (encode_all (stop_ops (direction d))) d.
Proof. reflexivity. Qed.

Lemma foldl_frames (frame : Z → list Z) (cmd1 cmd2 : list Z) :
  (∀ c, frame c = cmd1 ++ [c] ++ cmd2) →
  ∀ w acc,
    foldl (λ cmdfull c, ((cmdfull ++ cmd1) ++ [c]) ++ cmd2) acc w
    = acc ++ flat_map frame w.
Proof.
  intros Hframe w. induction w as [|c w IH]; intros acc; simpl.
  - by rewrite app_nil_r.
  - rewrite IH, Hframe. by rewrite <- !app_assoc.
Qed.

Lemma encode_all_app ops1 ops2 :
  encode_all (ops1 ++ ops2) = encode_all ops1 ++ encode_all ops2.
Proof. apply flat_map_app. Qed.

Lemma encode_all_flat_map {A} (f : A → list op) (l : list A) :
  encode_all (flat_map f l) = flat_map (λ a, encode_all (f a)) l.
Proof.
  induction l as [|a l IH]; simpl; [done|].
  by rewrite encode_all_app, IH.
Qed.

Lemma setI2CWriteBytes_ops w d :
  setI2CWriteBytes w d = Returns (encode_all (write_ops (direction d) w)) d.
Proof.
  unfold setI2CWriteBytes. run. f_equal.
  unfold write_ops. rewrite encode_all_flat_map.
  by rewrite (foldl_frames (λ c, encode_all (write_frame (direction d) c))).
Qed.

Lemma master_acks_S n : master_acks (S (S n)) = 0x00 :: master_acks (S n).
Proof. reflexivity. Qed.

Lemma readBytes_loop_frames (frame : Z → list Z) (cmd1 cmd2 : list Z) setCnt :
  (∀ a, frame a = cmd1 ++ [a] ++ cmd2) →
  ∀ k iCnt acc,
    iCnt + Z.of_nat k = setCnt →
    readBytes_loop cmd1 cmd2 setCnt k iCnt acc
    = acc ++ flat_map frame (master_acks k).
Proof.
  intros Hframe k. induction k as [|k IH]; intros iCnt acc Hk.
  - simpl. by rewrite app_nil_r.
  - cbn [readBytes_loop]. rewrite IH by lia.
    destruct k as [|k].
    + rewrite bool_decide_eq_false_2 by (intros Hne; apply Hne; lia).
      simpl. rewrite Hframe, !app_nil_r. by rewrite <- !app_assoc.
    + rewrite bool_decide_eq_true_2 by lia.
      rewrite master_acks_S. cbn [flat_map].
      rewrite Hframe. by rewrite <- !app_assoc.
Qed.

Lemma setI2CReadBytes_ops setCnt d :
  setI2CReadBytes setCnt d =
  Returns (encode_all (read_ops (direction d) (Z.to_nat setCnt))) d.
Proof.
  unfold setI2CReadBytes. run. f_equal.
  unfold read_ops. rewrite encode_all_flat_map.
  destruct (decide (0 ≤ setCnt)) as [Hpos|Hneg].
  - rewrite (readBytes_loop_frames
               (λ a, encode_all (read_frame (direction d) a)));
      [done | done | lia].
  - by replace (Z.to_nat setCnt) with 0%nat by lia.
Qed.

(** ** Proofs: decoding a batch *)

Lemma distinct_opcodes_neq :
  distinct_opcodes →
  gpioSetD oc ≠ op_out8 ∧ gpioSetD oc ≠ op_in1 ∧ gpioSetD oc ≠ op_in8
  ∧ gpioSetD oc ≠ op_out1 ∧ op_out8 ≠ op_in1 ∧ op_out8 ≠ op_in8
  ∧ op_out8 ≠ op_out1 ∧ op_in1 ≠ op_in8 ∧ op_in1 ≠ op_out1
  ∧ op_in8 ≠ op_out1.
Proof.
  unfold distinct_opcodes.
  rewrite !list.NoDup_cons, !not_elem_of_cons. tauto.
Qed.

Lemma decode_encode_app o tl :
  distinct_opcodes →
  decode (encode o ++ tl) = cons o <$> decode tl.
Proof.
  intros Hd. apply distinct_opcodes_neq in Hd.
  destruct Hd as (?&?&?&?&?&?&?&?&?&?).
  destruct o; cbn [encode app decode];
    repeat (case_decide; try congruence); try done; naive_solver.
Qed.

Lemma decode_encode_all ops :
  distinct_opcodes → decode (encode_all ops) = Some ops.
Proof.
  intros Hd. induction ops as [|o ops IH]; [done|].
  cbn [encode_all flat_map]. rewrite decode_encode_app by done.
  fold (encode_all ops). by rewrite IH.
Qed.

Lemma count_app p ops1 ops2 :
  count p (ops1 ++ ops2) = count p ops1 + count p ops2.
Proof. unfold count. rewrite List.filter_app, length_app. lia. Qed.

Lemma count_cons p o ops :
  count p (o :: ops) = (if p o then 1 else 0) + count p ops.
Proof.
  unfold count. cbn [List.filter]. destruct (p o); cbn [length]; lia.
Qed.

Lemma count_pins p dir :
  p = is_ack_check ∨ p = is_read ∨ p = shifts_in →
  count p (start_ops dir) = 0 ∧ count p (stop_ops dir) = 0
  ∧ count p (idle_ops dir) = 0.
Proof. intros [-> | [-> | ->]]; repeat split; reflexivity. Qed.

Lemma count_write_ops dir bs :
  count is_ack_check (write_ops dir bs) = len bs
  ∧ count is_read (write_ops dir bs) = 0
  ∧ count shifts_in (write_ops dir bs) = len bs.
Proof.
  unfold write_ops, len. induction bs as [|c bs (IH1 & IH2 & IH3)]; [done|].
  cbn [flat_map length]. rewrite !count_app, IH1, IH2, IH3.
  unfold count. cbn. lia.
Qed.

Lemma count_read_ops dir n :
  count is_ack_check (read_ops dir n) = 0
  ∧ count shifts_in (read_ops dir n) = Z.of_nat n.
Proof.
  unfold read_ops.
  assert (∀ l, count is_ack_check (flat_map (read_frame dir) l) = 0
             ∧ count shifts_in (flat_map (read_frame dir) l) = len l) as Hl.
  { unfold len. induction l as [|a l [IH1 IH2]]; [done|].
    cbn [flat_map length]. rewrite !count_app, IH1, IH2.
    unfold count. cbn. lia. }
  destruct (Hl (master_acks n)) as [H1 H2]. split; [done|].
  rewrite H2. unfold len. destruct n as [|n]; [done|].
  cbn [master_acks]. rewrite length_app, length_replicate. cbn. lia.
Qed.

Lemma driven_bits_read_ops dir n :
  driven_bits (read_ops dir n) = driven_bit <$> master_acks n.
Proof.
  unfold read_ops. induction (master_acks n) as [|a l IH]; [done|].
  cbn [flat_map fmap list_fmap]. unfold driven_bits in *.
  rewrite flat_map_app, IH. done.
Qed.

(** ** Proofs: the transaction builder *)

Ltac step :=
  rewrite ?setI2CStart_ops, ?setI2CStop_ops, ?setI2CWriteBytes_ops,
    ?setI2CReadBytes_ops, ?setI2CLinesIdle_ops;
  cbv beta iota.

Lemma len_nil_iff (s : list Z) : len s = 0 ↔ s = [].
Proof. unfold len. destruct s; cbn [length]; split; (done || lia). Qed.

Lemma byWrite_eq (a : Z) (w : list Z) :
  (if decide (len w ≠ 0) then ([] ++ [a]) ++ w else [] ++ [a]) = a :: w.
Proof.
  case_decide as Hw; [done|].
  assert (w = []) as -> by (apply len_nil_iff; lia). done.
Qed.

Lemma Tx_assemble_combined addr w r d :
  w ≠ [] → r ≠ [] →
  let dir := direction d in
  let dir' := idle_direction dir in
  Tx_assemble addr w r d =
  Returns
    (encode_all (start_ops dir)
     ++ encode_all (write_ops dir (address_byte addr false :: w))
     ++ encode_all (stop_ops dir)
     ++ encode_all (idle_ops dir')
     ++ encode_all (start_ops dir')
     ++ encode_all (write_ops dir' [address_byte addr true])
     ++ encode_all (read_ops dir' (length r))
     ++ encode_all (stop_ops dir'),
     (1 + len w) + 1 + len r)
    (set_direction dir' d).
Proof.
  intros Hw Hr dir dir'. unfold Tx_assemble. run. step.
  rewrite (decide_True (P := len r ≠ 0 ∧ len w ≠ 0))
    by (rewrite !len_nil_iff; done).
  step. cbn [direction set_direction]. step. cbn [direction set_direction].
  step. cbn [direction set_direction]. step.
  fold dir dir'. rewrite byWrite_eq. unfold len. rewrite Nat2Z.id. f_equal.
  f_equal; [by rewrite <- !app_assoc|].
  cbn [app length]. lia.
Qed.

Lemma Tx_assemble_single addr w r d :
  w = [] ∨ r = [] →
  Tx_assemble addr w r d =
  Returns
    (encode_all (start_ops (direction d)
                 ++ write_ops (direction d) (address_byte addr false :: w)
                 ++ stop_ops (direction d)),
     1 + len w)
    d.
Proof.
  intros Hwr. unfold Tx_assemble. run. step.
  rewrite (decide_False (P := len r ≠ 0 ∧ len w ≠ 0)); cycle 1.
  { rewrite !len_nil_iff. intros [? ?]. by destruct Hwr. }
  step. rewrite byWrite_eq, !encode_all_app.
  f_equal. f_equal.
  unfold len. cbn [length]. lia.
Qed.

(** ** Proofs: the transaction executor *)

Lemma nak_land b : Z.land b 0x01 ≠ 0 ↔ nak b = true.
Proof.
  unfold nak. change 0x01 with (Z.ones 1).
  rewrite Z.land_ones by lia. rewrite <- Z.bit0_mod.
  destruct (Z.testbit b 0); cbn; split; (done || lia).
Qed.

Lemma index_lt (s : list Z) (i : Z) :
  0 ≤ i < len s → ∃ b, index s i = Some b.
Proof.
  intros Hi. unfold index. rewrite decide_True by lia.
  apply lookup_lt_is_Some. unfold len in Hi. lia.
Qed.

Lemma index_neg (s : list Z) (i : Z) : i < 0 → index s i = None.
Proof. intros Hi. unfold index. by rewrite decide_False by lia. Qed.

Lemma length_filled n data : length (filled n data) = n.
Proof.
  unfold filled. rewrite length_take, length_app, length_replicate. lia.
Qed.

Lemma len_filled n data : 0 ≤ n → len (filled (Z.to_nat n) data) = n.
Proof. intros Hn. unfold len. rewrite length_filled. lia. Qed.

Lemma verify_acks_nak readBuff k iCnt :
  0 ≤ iCnt → iCnt + Z.of_nat k ≤ len readBuff →
  (∃ i b, iCnt ≤ i < iCnt + Z.of_nat k
          ∧ index readBuff i = Some b ∧ nak b = true) →
  verify_acks readBuff k iCnt = Return ErrGotNAK.
Proof.
  revert iCnt. induction k as [|k IH]; intros iCnt H0 Hlen (i & b & Hi & Hb & Hn).
  - lia.
  - cbn [verify_acks].
    destruct (index_lt readBuff iCnt) as [b0 Hb0]; [lia|]. rewrite Hb0.
    case_decide as Hnak; [done|].
    apply IH; [lia | lia |]. exists i, b. split; [|done].
    destruct (decide (i = iCnt)) as [->|]; [|lia].
    rewrite Hb0 in Hb. injection Hb as ->.
    by apply nak_land in Hn.
Qed.

Lemma verify_acks_acked readBuff k iCnt :
  0 ≤ iCnt → iCnt + Z.of_nat k ≤ len readBuff →
  (∀ i b, iCnt ≤ i < iCnt + Z.of_nat k → index readBuff i = Some b →
          nak b = false) →
  verify_acks readBuff k iCnt = Continue tt.
Proof.
  revert iCnt. induction k as [|k IH]; intros iCnt H0 Hlen Hack; [done|].
  cbn [verify_acks].
  destruct (index_lt readBuff iCnt) as [b0 Hb0]; [lia|]. rewrite Hb0.
  case_decide as Hnak.
  - apply nak_land in Hnak. rewrite (Hack iCnt b0) in Hnak; [done | lia | done].
  - apply IH; [lia | lia |]. intros i b Hi. apply Hack. lia.
Qed.

Lemma verify_acks_none readBuff k :
  k = 0%nat → verify_acks readBuff k 0 = Continue tt.
Proof. by intros ->. Qed.

Lemma set_recv_copies readBuff readCnt (L : nat) :
  len readBuff = readCnt → Z.of_nat L ≤ readCnt →
  ∀ k iCnt r,
    length r = L → (iCnt + k = L)%nat →
    set_recv readBuff readCnt k (Z.of_nat iCnt) r
    = Continue (take iCnt r
                ++ take k (drop (Z.to_nat (readCnt - Z.of_nat L) + iCnt) readBuff)).
Proof.
  intros Hbuf HL k. induction k as [|k IH]; intros iCnt r Hr Hk.
  - cbn [set_recv take]. rewrite app_nil_r, take_ge by lia. done.
  - cbn [set_recv]. unfold len in *. rewrite Hr.
    destruct (index_lt readBuff (readCnt - Z.of_nat L + Z.of_nat iCnt))
      as [b Hb]; [unfold len; lia|].
    rewrite Hb. unfold store. rewrite decide_True by lia.
    replace (Z.of_nat iCnt + 1) with (Z.of_nat (S iCnt)) by lia.
    rewrite IH by (rewrite ?length_insert; lia).
    f_equal. rewrite Nat2Z.id.
    unfold index in Hb. rewrite decide_True in Hb by lia.
    replace (Z.to_nat (readCnt - Z.of_nat L + Z.of_nat iCnt))
      with (Z.to_nat (readCnt - Z.of_nat L) + iCnt)%nat in Hb by lia.
    rewrite (drop_S _ _ _ Hb).
    rewrite (take_S_r _ _ b) by (apply list_lookup_insert_eq; lia).
    rewrite take_insert_ge by lia. cbn [take].
    rewrite <- app_assoc. cbn [app]. by rewrite Nat.add_succ_r.
Qed.

Lemma set_recv_whole readBuff readCnt r :
  len readBuff = readCnt → len r ≤ readCnt →
  set_recv readBuff readCnt (length r) 0 r
  = Continue (drop (Z.to_nat (readCnt - len r)) readBuff).
Proof.
  intros Hbuf Hle.
  pose proof (set_recv_copies readBuff readCnt (length r) Hbuf Hle
                (length r) 0%nat r eq_refl eq_refl) as Hcopy.
  change (Z.of_nat 0) with 0 in Hcopy. rewrite Hcopy.
  rewrite Nat.add_0_r, (take_ge (drop _ _)); [reflexivity|].
  rewrite length_drop. unfold len in *. lia.
Qed.

Lemma set_recv_panics readBuff readCnt r :
  readCnt < len r → 0 ≤ readCnt →
  set_recv readBuff readCnt (length r) 0 r = Panic.
Proof.
  intros Hlt H0. unfold len in Hlt.
  destruct (length r) as [|n] eqn:Hr; [lia|].
  cbn [set_recv]. unfold len. rewrite Hr.
  by rewrite index_neg by lia.
Qed.

Lemma h_set_h v d : h (set_h v d) = v.
Proof. reflexivity. Qed.

Lemma set_h_set_h v1 v2 d : set_h v2 (set_h v1 d) = set_h v2 d.
Proof. reflexivity. Qed.

Lemma err_of_None rp : err_of rp = None → ∃ x, rp = Done x.
Proof. destruct rp; [eauto | done]. Qed.

Lemma transactionEnd_delivered w readCnt r d data :
  0 ≤ readCnt → delivers (h d) w readCnt data →
  transactionEnd w readCnt r d =
  let d' := set_h (h d ++ transaction_calls w readCnt) d in
  let readBuff := filled (Z.to_nat readCnt) data in
  match verify_acks readBuff (Z.to_nat (readCnt - len r)) 0 with
  | Panic => Panics
  | Return e => Returns (r, Some e) d'
  | Continue _ =>
      match set_recv readBuff readCnt (length r) 0 r with
      | Panic => Panics
      | Return e => Returns (r, Some e) d'
      | Continue r' => Returns (r', None) d'
      end
  end.
Proof.
  intros Hcnt (Hflush & Hwrite & Hread).
  apply err_of_None in Hflush as [x1 Hflush].
  apply err_of_None in Hwrite as [x2 Hwrite].
  unfold transactionEnd. run. cbn [app].
  rewrite Hflush. rewrite decide_False by lia.
  rewrite !h_set_h, Hwrite. rewrite !h_set_h, Hread.
  rewrite !set_h_set_h.
  unfold transaction_calls. rewrite <- !app_assoc. cbn [app].
  destruct (verify_acks _ _ _); [|done|done].
  by destruct (set_recv _ _ _ _ _).
Qed.

Lemma transactionEnd_nak w readCnt r d data :
  delivers (h d) w readCnt data →
  nak_in_region (filled (Z.to_nat readCnt) data) readCnt r →
  transactionEnd w readCnt r d =
  Returns (r, Some ErrGotNAK) (set_h (h d ++ transaction_calls w readCnt) d).
Proof.
  intros Hdel (i & b & Hi & Hb & Hn).
  assert (0 ≤ len r) by (unfold len; lia).
  rewrite (transactionEnd_delivered _ _ _ _ data) by (done || lia).
  cbv zeta. rewrite verify_acks_nak; [done | lia | |].
  - rewrite len_filled by lia. lia.
  - exists i, b. split; [lia | done].
Qed.

Lemma transactionEnd_copies w readCnt r d data :
  len r ≤ readCnt → delivers (h d) w readCnt data →
  region_acked (filled (Z.to_nat readCnt) data) readCnt r →
  transactionEnd w readCnt r d =
  Returns (drop (Z.to_nat (readCnt - len r)) (filled (Z.to_nat readCnt) data),
           None)
          (set_h (h d ++ transaction_calls w readCnt) d).
Proof.
  intros Hle Hdel Hack.
  assert (0 ≤ len r) by (unfold len; lia).
  rewrite (transactionEnd_delivered _ _ _ _ data) by (done || lia).
  cbv zeta. rewrite verify_acks_acked; [| lia | |].
  - rewrite set_recv_whole; [done | by apply len_filled; lia | done].
  - rewrite len_filled by lia. lia.
  - intros i b Hi. apply Hack. lia.
Qed.

Lemma transactionEnd_short w readCnt r d data :
  0 ≤ readCnt < len r → delivers (h d) w readCnt data →
  transactionEnd w readCnt r d = Panics.
Proof.
  intros Hlt Hdel.
  rewrite (transactionEnd_delivered _ _ _ _ data) by (done || lia).
  cbv zeta. rewrite verify_acks_none by lia.
  by rewrite set_recv_panics by lia.
Qed.

Lemma Tx_unfold addr w r d batch readCnt d1 :
  Tx_assemble addr w r d = Returns (batch, readCnt) d1 →
  Tx addr w r d = transactionEnd batch readCnt r d1.
Proof. intros Hasm. unfold Tx. run. by rewrite Hasm. Qed.

Lemma Tx_assemble_total addr w r d :
  ∃ batch d1,
    Tx_assemble addr w r d = Returns (batch, response_count w r) d1
    ∧ h d1 = h d.
Proof.
  unfold response_count.
  destruct (decide (w ≠ [] ∧ r ≠ [])) as [[Hw Hr]|Hno].
  - eexists _, _. split; [|shelve].
    rewrite Tx_assemble_combined by done. cbv zeta. f_equal. f_equal. lia.
    Unshelve. done.
  - eexists _, _. split; [|shelve].
    rewrite Tx_assemble_single; cycle 1.
    { destruct w; [by left|]. destruct r; [by right|].
      exfalso. by apply Hno. }
    f_equal. f_equal. lia. Unshelve. done.
Qed.

(** ** Proofs: address framing *)

Lemma lor_even_1 y : Z.lor (2 * y) 1 = 2 * y + 1.
Proof.
  apply Z.bits_inj'. intros n Hn. rewrite Z.lor_spec.
  destruct (decide (n = 0)) as [->|Hnz].
  - rewrite Z.testbit_even_0, Z.testbit_odd_0. done.
  - replace n with (Z.succ (n - 1)) by lia.
    rewrite Z.testbit_even_succ, Z.testbit_odd_succ by lia.
    change 1 with (2 * 0 + 1) at 2.
    rewrite Z.testbit_odd_succ, Z.testbit_0_l by lia.
    by rewrite orb_false_r.
Qed.

Lemma land_even_FE y : Z.land (2 * y) 0xFE = 2 * (y mod 128).
Proof.
  replace (2 * y) with (Z.shiftl y 1)
    by (rewrite Z.shiftl_mul_pow2 by lia; lia).
  change 0xFE with (Z.shiftl (Z.ones 7) 1).
  rewrite <- Z.shiftl_land, Z.land_ones by lia.
  rewrite Z.shiftl_mul_pow2 by lia. change (2 ^ 7) with 128. lia.
Qed.

Lemma address_byte_closed addr bRead :
  address_byte addr bRead = 2 * (addr mod 128) + (if bRead then 1 else 0).
Proof.
  unfold address_byte, byte_of, uint16_of. rewrite Z.shiftl_mul_pow2 by lia.
  change (2 ^ 1) with 2. rewrite (Z.mul_comm addr 2).
  replace ((2 * addr) mod 65536) with (2 * (addr mod 32768))
    by (by rewrite <- Zmult_mod_distr_l).
  destruct bRead.
  - rewrite lor_even_1. Z.to_euclidean_division_equations. lia.
  - rewrite land_even_FE. Z.to_euclidean_division_equations. lia.
Qed.

(** ** The transaction builder: statements *)

(** C1.  For a 7-bit address and non-empty [w] and [r], the batch [Tx]
    assembles is: start, write-byte-with-ack for the write-direction address
    byte followed by [w], stop, idle, a second start, write-byte-with-ack for
    the read-direction address byte, read-byte-with-ack-generation for
    [len r] bytes, and a final stop; the count handed to [transactionEnd]
    with it is [(1 + len w) + 1 + len r].  The idle step rewrites the
    direction mask, so what follows it is built on the new mask. *)
Theorem Tx_combined_batch addr w r d :
  0 ≤ addr < 128 → w ≠ [] → r ≠ [] →
  let dir := direction d in
  let dir' := idle_direction dir in
  let batch :=
    encode_all (start_ops dir)
    ++ encode_all (write_ops dir (address_byte addr false :: w))
    ++ encode_all (stop_ops dir)
    ++ encode_all (idle_ops dir')
    ++ encode_all (start_ops dir')
    ++ encode_all (write_ops dir' [address_byte addr true])
    ++ encode_all (read_ops dir' (length r))
    ++ encode_all (stop_ops dir') in
  let readCnt := (1 + len w) + 1 + len r in
  Tx_assemble addr w r d = Returns (batch, readCnt) (set_direction dir' d)
  ∧ Tx addr w r d = transactionEnd batch readCnt r (set_direction dir' d)
  ∧ address_byte addr false = 2 * addr
  ∧ address_byte addr true = 2 * addr + 1.
Proof.
  intros Haddr Hw Hr dir dir' batch readCnt.
  assert (Tx_assemble addr w r d
          = Returns (batch, readCnt) (set_direction dir' d)) as Hasm
    by (by apply Tx_assemble_combined).
  split; [done|]. split; [by apply Tx_unfold|].
  rewrite !address_byte_closed, Z.mod_small by lia. lia.
Qed.

Lemma Tx_single_phase_acks addr w r d :
  distinct_opcodes → w = [] ∨ r = [] →
  ∃ batch ops,
    Tx_assemble addr w r d = Returns (batch, 1 + len w) d
    ∧ decode batch = Some ops
    ∧ count is_ack_check ops = 1 + len w
    ∧ count is_read ops = 0
    ∧ count shifts_in ops = 1 + len w.
Proof.
  intros Hd Hwr.
  pose proof (Tx_assemble_single addr w r d Hwr) as Hasm.
  eexists _, _. split; [exact Hasm|].
  split; [by apply decode_encode_all|].
  destruct (count_write_ops (direction d) (address_byte addr false :: w))
    as (Hack & Hread & Hin).
  destruct (count_pins is_ack_check (direction d)) as (Ha1 & Ha2 & _);
    [by left|].
  destruct (count_pins is_read (direction d)) as (Hr1 & Hr2 & _);
    [by right; left|].
  destruct (count_pins shifts_in (direction d)) as (Hs1 & Hs2 & _);
    [by right; right|].
  rewrite !count_app, Hack, Hread, Hin, Ha1, Ha2, Hr1, Hr2, Hs1, Hs2.
  unfold len. cbn [length]. lia.
Qed.

(** X17.  The count handed to [transactionEnd] is the number of shift-in
    operations of the batch, one response byte each, whatever [w] and [r]
    are. *)
Lemma Tx_count_is_shift_ins addr w r d :
  distinct_opcodes →
  ∃ batch ops d1,
    Tx_assemble addr w r d = Returns (batch, response_count w r) d1
    ∧ decode batch = Some ops
    ∧ count shifts_in ops = response_count w r.
Proof.
  intros Hd. unfold response_count.
  destruct (decide (w ≠ [] ∧ r ≠ [])) as [[Hw Hr]|Hno].
  - pose proof (Tx_assemble_combined addr w r d Hw Hr) as Hasm.
    cbv zeta in Hasm. rewrite <- !encode_all_app in Hasm.
    eexists _, _, _. split; [|split; [by apply decode_encode_all|]].
    + rewrite Hasm. do 2 f_equal. lia.
    + set (dir := direction d). set (dir' := idle_direction dir).
      destruct (count_pins shifts_in dir) as (Hs1 & Hs2 & _);
        [by right; right|].
      destruct (count_pins shifts_in dir') as (Hs3 & Hs4 & Hs5);
        [by right; right|].
      destruct (count_write_ops dir (address_byte addr false :: w))
        as (_ & _ & Hw1).
      destruct (count_write_ops dir' [address_byte addr true])
        as (_ & _ & Hw2).
      destruct (count_read_ops dir' (length r)) as (_ & Hr1).
      rewrite !count_app, Hs1, Hs2, Hs3, Hs4, Hs5, Hw1, Hw2, Hr1.
      unfold len. cbn [length]. lia.
  - destruct (Tx_single_phase_acks addr w r d Hd)
      as (batch & ops & Hasm & Hdec & _ & _ & Hin).
    { destruct w; [by left|]. destruct r; [by right|].
      exfalso. by apply Hno. }
    exists batch, ops, d. rewrite Z.add_0_r. done.
Qed.

(** C6.  For a non-empty [w] and an empty read buffer, the batch decodes to
    operations of which exactly [1 + len w] are acknowledgment checks (a
    one-bit shift-in) and none belongs to a read (neither an eight-bit
    shift-in nor a master-driven acknowledgment bit); the count handed to
    [transactionEnd] is [1 + len w]. *)
Theorem Tx_write_only_acks addr w d :
  distinct_opcodes → w ≠ [] →
  ∃ batch ops,
    Tx_assemble addr w [] d = Returns (batch, 1 + len w) d
    ∧ Tx addr w [] d = transactionEnd batch (1 + len w) [] d
    ∧ decode batch = Some ops
    ∧ count is_ack_check ops = 1 + len w
    ∧ count is_read ops = 0.
Proof.
  intros Hd Hw.
  destruct (Tx_single_phase_acks addr w [] d Hd (or_intror eq_refl))
    as (batch & ops & Hasm & Hdec & Hack & Hread & _).
  exists batch, ops. split; [done|]. split; [by apply Tx_unfold|]. done.
Qed.

(** C7.  For [setCnt >= 1] the read-byte builder emits [setCnt] frames, each
    an eight-bit shift-in followed at once by a one-bit shift-out; the bit
    driven is 0 (ACK, data byte 0x00) after each of the first [setCnt - 1]
    shift-ins and 1 (NAK, data byte 0xFF) after the last. *)
Theorem setI2CReadBytes_master_acks setCnt d :
  1 ≤ setCnt →
  let n := Z.to_nat setCnt in
  let ops :=
    flat_map (read_frame (direction d))
             (replicate (n - 1) 0x00 ++ [0xFF]) in
  setI2CReadBytes setCnt d = Returns (encode_all ops) d
  ∧ length (List.filter shifts_in ops) = n
  ∧ driven_bits ops = replicate (n - 1) false ++ [true].
Proof.
  intros Hn n ops. rewrite setI2CReadBytes_ops. fold n.
  assert (ops = read_ops (direction d) n) as ->.
  { unfold ops, read_ops. destruct n as [|n'] eqn:En; [lia|].
    cbn [master_acks]. by rewrite Nat.sub_succ, Nat.sub_0_r. }
  split; [done|]. split.
  - destruct (count_read_ops (direction d) n) as [_ Hin].
    unfold count in Hin. lia.
  - rewrite driven_bits_read_ops. destruct n as [|n'] eqn:En; [lia|].
    cbn [master_acks]. rewrite Nat.sub_succ, Nat.sub_0_r.
    by rewrite fmap_app, fmap_replicate.
Qed.

(** C10.  The address reaches the batch only through [address_byte], which
    keeps the low seven bits of it: the framed byte is twice the address
    modulo 128 plus the direction flag.  Two addresses that agree modulo
    128 give the same batch, the same count and the same run of [Tx]. *)
Theorem Tx_ignores_upper_address_bits addr1 addr2 w r d :
  addr1 mod 128 = addr2 mod 128 →
  (∀ bRead, address_byte addr1 bRead
            = 2 * (addr1 mod 128) + (if bRead then 1 else 0))
  ∧ (∀ bRead, address_byte addr1 bRead = address_byte addr2 bRead)
  ∧ Tx_assemble addr1 w r d = Tx_assemble addr2 w r d
  ∧ Tx addr1 w r d = Tx addr2 w r d.
Proof.
  intros Hlow.
  assert (∀ bRead, address_byte addr1 bRead = address_byte addr2 bRead) as Heq.
  { intros bRead. by rewrite !address_byte_closed, Hlow. }
  split; [apply address_byte_closed|]. split; [done|].
  assert (Tx_assemble addr1 w r d = Tx_assemble addr2 w r d) as Hasm.
  { unfold Tx_assemble. by rewrite !Heq. }
  split; [done|]. unfold Tx. run. by rewrite Hasm.
Qed.

(** ** The transaction executor: statements *)

(** C2.  Once the adapter has taken the batch and answered the read, a
    response byte with bit 0 set anywhere in the acknowledgment region
    (indices [0] to [readCnt - len r - 1]) makes [Tx] return the "got NAK"
    error, of kind [NakReceived], with the read buffer as the caller passed
    it. *)
Theorem Tx_nak_leaves_read_buffer addr w r d batch readCnt d1 data :
  Tx_assemble addr w r d = Returns (batch, readCnt) d1 →
  delivers (h d1) batch readCnt data →
  nak_in_region (filled (Z.to_nat readCnt) data) readCnt r →
  Tx addr w r d =
    Returns (r, Some ErrGotNAK)
            (set_h (h d1 ++ transaction_calls batch readCnt) d1)
  ∧ kind_of ErrGotNAK = NakReceived.
Proof.
  intros Hasm Hdel Hnak. split; [|done].
  rewrite (Tx_unfold _ _ _ _ _ _ _ Hasm).
  by apply (transactionEnd_nak _ _ _ _ data).
Qed.

(** C5, amended.  For a transaction that is not a pure read ([w] non-empty
    or [r] empty), once the adapter has taken the batch and answered the
    read with no NAK in the acknowledgment region, [Tx] returns no error and
    leaves in the read buffer the last [len r] bytes of the response, in
    order: byte [i] of the buffer is byte [readCnt - len r + i] of the
    response. *)
Theorem Tx_copies_response_tail addr w r d batch readCnt d1 data :
  w ≠ [] ∨ r = [] →
  Tx_assemble addr w r d = Returns (batch, readCnt) d1 →
  delivers (h d1) batch readCnt data →
  region_acked (filled (Z.to_nat readCnt) data) readCnt r →
  let resp := filled (Z.to_nat readCnt) data in
  ∃ r',
    Tx addr w r d =
      Returns (r', None) (set_h (h d1 ++ transaction_calls batch readCnt) d1)
    ∧ length r' = length r
    ∧ r' = drop (Z.to_nat (readCnt - len r)) resp
    ∧ ∀ i, 0 ≤ i < len r → index r' i = index resp (readCnt - len r + i).
Proof.
  intros Hwr Hasm Hdel Hack resp.
  destruct (Tx_assemble_total addr w r d) as (batch' & d1' & Hasm' & _).
  rewrite Hasm in Hasm'. injection Hasm' as _ Hcnt _.
  assert (len r ≤ readCnt) as Hle.
  { rewrite Hcnt. unfold response_count, len.
    destruct Hwr as [Hw | ->]; [|cbn [length]; case_decide; lia].
    case_decide as Hno; [lia|].
    destruct r as [|b r]; [cbn [length]; lia|].
    exfalso. by apply Hno. }
  assert (0 ≤ len r) by (unfold len; lia).
  exists (drop (Z.to_nat (readCnt - len r)) resp).
  split; [|split; [|split; [done|]]].
  - rewrite (Tx_unfold _ _ _ _ _ _ _ Hasm).
    by apply (transactionEnd_copies _ _ _ _ data).
  - rewrite length_drop. unfold resp. rewrite length_filled.
    unfold len in *. lia.
  - intros i Hi. unfold index. rewrite !decide_True by lia.
    rewrite lookup_drop. f_equal. lia.
Qed.

(** A pure read of one byte: the address acknowledgment is not looked at,
    and it is that byte the read buffer receives. *)
Lemma Tx_pure_read_one addr b d data :
  let batch :=
    encode_all (start_ops (direction d)
                ++ write_ops (direction d) [address_byte addr false]
                ++ stop_ops (direction d)) in
  delivers (h d) batch 1 data →
  Tx addr [] [b] d =
    Returns (filled 1 data, None) (set_h (h d ++ transaction_calls batch 1) d).
Proof.
  intros batch Hdel.
  rewrite (Tx_unfold _ _ _ _ batch 1 d)
    by (by rewrite Tx_assemble_single by (by left)).
  rewrite (transactionEnd_copies _ _ _ _ data); [done | done | done |].
  intros i x Hi. unfold len in Hi. cbn [length] in Hi. lia.
Qed.

(** A pure read of two bytes or more panics: the copy loop starts at the
    negative index [1 - len r]. *)
Lemma Tx_pure_read_more addr r d data :
  let batch :=
    encode_all (start_ops (direction d)
                ++ write_ops (direction d) [address_byte addr false]
                ++ stop_ops (direction d)) in
  2 ≤ len r →
  delivers (h d) batch 1 data →
  Tx addr [] r d = Panics.
Proof.
  intros batch Hr Hdel.
  rewrite (Tx_unfold _ _ _ _ batch 1 d)
    by (by rewrite Tx_assemble_single by (by left)).
  apply (transactionEnd_short _ _ _ _ data); [lia | done].
Qed.

(** ** Clock and mode: statements *)

(** C4.  A frequency from 100 Hz to 10 MHz makes [SetSpeed] call the
    handle's [MPSSEClock] with [f * 2 / 3] and return what that call
    returns, which is never an error of kind [OutOfRange]; a frequency
    above 10 MHz or below 100 Hz makes it return an error of kind
    [OutOfRange] with no call made on the handle. *)
Theorem SetSpeed_range f d :
  (100 * physic.Hertz ≤ f ≤ 10 * physic.MegaHertz →
   let hist := h d ++ [MPSSEClock (f * 2 / 3)] in
   SetSpeed f d = Returns (err_of (env hist)) (set_h hist d)
   ∧ ∀ e, err_of (env hist) = Some e → kind_of e ≠ OutOfRange)
  ∧ (f > 10 * physic.MegaHertz ∨ f < 100 * physic.Hertz →
     ∃ e, SetSpeed f d = Returns (Some e) d ∧ kind_of e = OutOfRange).
Proof.
  unfold SetSpeed.
  unfold physic.MegaHertz, physic.KiloHertz, physic.Hertz, physic.MilliHertz,
    physic.MicroHertz.
  split.
  - intros Hf. cbv zeta. rewrite !decide_False by lia. run.
    assert (Z.quot (wrap64 (f * 2)) 3 = f * 2 / 3) as ->.
    { unfold wrap64. rewrite Z.quot_div_nonneg.
      - f_equal. rewrite Z.mod_small; lia.
      - rewrite Z.mod_small; lia.
      - lia. }
    split; [done|]. intros e. destruct (env _); [done|].
    cbn [err_of]. by intros [= <-].
  - intros Hf. case_decide.
    + by eexists.
    + rewrite decide_True by lia. by eexists.
Qed.

Lemma setup_clk_value : setup_clk = 49.
Proof. reflexivity. Qed.

(** C8.  [setupI2C] computes its divisor as
    [((30 MHz / 400 kHz) - 1) * 2 / 3] in integer arithmetic, which is 49,
    and the first thing it writes to the adapter ends with the set-divisor
    opcode followed by the divisor as two bytes, low byte first. *)
Theorem setupI2C_divisor d :
  setup_clk
  = (30 * physic.MegaHertz / (400 * physic.KiloHertz) - 1) * 2 / 3
  ∧ setup_clk = 49
  ∧ setup_cmd setup_clk =
      [ clock30MHz oc; clockNormal oc; clock3Phase oc; dataTristate oc;
        0x07; 0x00; internalLoopbackDisable oc; clockSetDivisor oc; 49; 0 ]
  ∧ ∃ e d', setupI2C false d = Returns e d'
            ∧ h d ++ [Write (setup_cmd setup_clk)] `prefix_of` h d'.
Proof.
  split; [reflexivity|]. split; [reflexivity|]. split; [reflexivity|].
  unfold setupI2C. run. rewrite setup_clk_value.
  repeat match goal with
         | |- context [Write ?c] =>
             progress change c with (setup_cmd 49)
         end.
  destruct (env (h d ++ [Write (setup_cmd 49)])) as [x|code].
  - rewrite setI2CLinesIdle_ops. cbv beta iota.
    destruct (env _); eexists _, _; (split; [reflexivity|]);
      cbn [h set_h set_direction set_usingI2C set_pullUp];
      by apply prefix_app_r.
  - eexists _, _. split; [reflexivity|]. done.
Qed.

(** C9, amended.  Two calls of [Close] in a row each write the same reset
    bytes ([clock2Phase], [clock30MHz], 0, 0, and the tristate reset unless
    [pullUp] is set) and each leave [usingI2C] cleared.  [Close] has no
    error of its own: the second call returns what the adapter answers to
    its write, so it returns no error whenever that write is accepted. *)
Theorem Close_twice d :
  ∃ e1 d1 e2 d2,
    Close d = Returns e1 d1 ∧ Close d1 = Returns e2 d2
    ∧ h d1 = h d ++ [Write (stop_cmd (pullUp d))]
    ∧ h d2 = h d1 ++ [Write (stop_cmd (pullUp d))]
    ∧ usingI2C d1 = false ∧ usingI2C d2 = false
    ∧ e1 = err_of (env (h d1)) ∧ e2 = err_of (env (h d2)).
Proof.
  unfold Close, stopI2C. run.
  eexists _, _, _, _. split; [reflexivity|]. split; [reflexivity|].
  unfold stop_cmd. cbn [h set_h set_usingI2C pullUp usingI2C].
  by destruct (pullUp d).
Qed.

(** ** Further statements: the sequencer *)

Lemma testbit_mask i :
  0 ≤ i → Z.testbit mask i = bool_decide (3 ≤ i < 8).
Proof.
  intros Hi. destruct (decide (i < 8)) as [Hlt|Hge].
  - assert (i = 0 ∨ i = 1 ∨ i = 2 ∨ i = 3 ∨ i = 4 ∨ i = 5 ∨ i = 6 ∨ i = 7)
      as Hcases by lia.
    destruct Hcases as [-> | [-> | [-> | [-> | [-> | [-> | [-> | ->]]]]]]];
      reflexivity.
  - rewrite bool_decide_eq_false_2 by lia.
    apply Z.bits_above_log2; [done|]. change (Z.log2 mask) with 7. lia.
Qed.

Lemma testbit_small (c i : Z) :
  0 ≤ c < 4 → 2 ≤ i → Z.testbit c i = false.
Proof.
  intros Hc Hi. destruct (decide (c = 0)) as [->|Hnz].
  - apply Z.testbit_0_l.
  - apply Z.bits_above_log2; [lia|].
    assert (Z.log2 c < 2); [|lia].
    apply Z.log2_lt_pow2; lia.
Qed.

Lemma testbit_idle_direction dir i :
  0 ≤ i →
  Z.testbit (idle_direction dir) i
  = if decide (i < 2) then true
    else bool_decide (3 ≤ i < 8) && Z.testbit dir i.
Proof.
  intros Hi. unfold idle_direction.
  rewrite !Z.lor_spec, Z.land_spec, testbit_mask by done.
  case_decide as Hlow.
  - assert (i = 0 ∨ i = 1) as [-> | ->] by lia; cbn;
      by rewrite ?orb_true_r.
  - unfold i2cSCL, i2cSDAOut.
    rewrite (testbit_small 1), (testbit_small 2) by lia.
    rewrite !orb_false_r. apply andb_comm.
Qed.

Lemma idle_direction_idempotent dir :
  idle_direction (idle_direction dir) = idle_direction dir.
Proof.
  apply Z.bits_inj'. intros i Hi.
  rewrite !testbit_idle_direction by done.
  case_decide; [done|]. by destruct (bool_decide (3 ≤ i < 8)).
Qed.

Lemma idle_direction_byte dir : 0 ≤ idle_direction dir < 256.
Proof.
  assert (idle_direction dir = idle_direction dir mod 2 ^ 8) as ->.
  { apply Z.bits_inj'. intros i Hi.
    rewrite Z.testbit_mod_pow2, testbit_idle_direction by lia.
    destruct (Z.ltb_spec i 8) as [Hlt|Hge]; cbn [andb]; [done|].
    rewrite decide_False by lia. by rewrite bool_decide_eq_false_2 by lia. }
  apply Z.mod_pos_bound. lia.
Qed.

(** X1.  [setI2CLinesIdle] makes D0 and D1 outputs and D2 an input, leaves
    the direction of D3 to D7 as it was, keeps the mask a byte, and changes
    nothing else of the bus; a second call returns the same bytes and
    changes nothing at all. *)
Theorem setI2CLinesIdle_direction d :
  ∃ cmd d',
    setI2CLinesIdle d = Returns cmd d'
    ∧ Z.testbit (direction d') 0 = true
    ∧ Z.testbit (direction d') 1 = true
    ∧ Z.testbit (direction d') 2 = false
    ∧ (∀ i, 3 ≤ i < 8 →
            Z.testbit (direction d') i = Z.testbit (direction d) i)
    ∧ 0 ≤ direction d' < 256
    ∧ usingI2C d' = usingI2C d ∧ pullUp d' = pullUp d ∧ h d' = h d
    ∧ setI2CLinesIdle d' = Returns cmd d'.
Proof.
  eexists _, _. split; [apply setI2CLinesIdle_ops|].
  cbn [direction set_direction usingI2C pullUp h].
  rewrite !testbit_idle_direction by lia.
  split; [done|]. split; [done|]. split; [done|].
  split.
  { intros i Hi. rewrite testbit_idle_direction by lia.
    rewrite decide_False by lia. by rewrite bool_decide_eq_true_2 by lia. }
  split; [apply idle_direction_byte|].
  split; [done|]. split; [done|]. split; [done|].
  rewrite setI2CLinesIdle_ops. cbn [direction set_direction].
  by rewrite idle_direction_idempotent.
Qed.

Lemma length_encode_pins dir :
  length (encode_all (start_ops dir)) = 24%nat
  ∧ length (encode_all (stop_ops dir)) = 36%nat
  ∧ length (encode_all (idle_ops dir)) = 12%nat.
Proof. done. Qed.

Lemma length_encode_write_ops dir bs :
  len (encode_all (write_ops dir bs)) = 18 * len bs.
Proof.
  unfold len, write_ops. induction bs as [|c bs IH]; [done|].
  cbn [flat_map]. rewrite encode_all_app, length_app.
  cbn [length] in *. change (length (encode_all (write_frame dir c)))
    with 18%nat. lia.
Qed.

Lemma length_encode_read_frames dir acks :
  len (encode_all (flat_map (read_frame dir) acks)) = 9 * len acks.
Proof.
  unfold len. induction acks as [|a acks IH]; [done|].
  cbn [flat_map]. rewrite encode_all_app, length_app.
  cbn [length] in *. change (length (encode_all (read_frame dir a)))
    with 9%nat. lia.
Qed.

Lemma length_master_acks n : length (master_acks n) = n.
Proof.
  destruct n as [|n]; [done|]. cbn [master_acks].
  rewrite length_app, length_replicate. cbn [length]. lia.
Qed.

Lemma length_encode_read_ops dir n :
  len (encode_all (read_ops dir n)) = 9 * Z.of_nat n.
Proof.
  unfold read_ops. rewrite length_encode_read_frames.
  unfold len. by rewrite length_master_acks.
Qed.

(** X2.  Sizes of what the sequencer emits: 12 bytes to idle, 24 for a
    start, 36 for a stop, 18 for each byte written (none for an empty
    slice), 9 for each byte read (none for a count of zero or less). *)
Theorem sequencer_lengths d w setCnt :
  (∃ cmd d', setI2CLinesIdle d = Returns cmd d' ∧ len cmd = 12)
  ∧ (∃ cmd, setI2CStart d = Returns cmd d ∧ len cmd = 24)
  ∧ (∃ cmd, setI2CStop d = Returns cmd d ∧ len cmd = 36)
  ∧ (∃ cmd, setI2CWriteBytes w d = Returns cmd d ∧ len cmd = 18 * len w)
  ∧ (∃ cmd, setI2CReadBytes setCnt d = Returns cmd d
            ∧ len cmd = 9 * Z.max 0 setCnt).
Proof.
  split; [by eexists _, _|]. split; [by eexists|]. split; [by eexists|].
  split.
  - eexists. split; [apply setI2CWriteBytes_ops|].
    apply length_encode_write_ops.
  - eexists. split; [apply setI2CReadBytes_ops|].
    rewrite length_encode_read_ops. lia.
Qed.

(** X3.  Size of the batch [Tx] assembles: 78 bytes and 18 per byte of [w]
    for start, address, payload and stop, to which a combined transaction
    adds 90 bytes and 9 per byte of [r]. *)
Theorem Tx_batch_length addr w r d :
  ∃ batch d1,
    Tx_assemble addr w r d = Returns (batch, response_count w r) d1
    ∧ len batch = batch_length w r.
Proof.
  unfold response_count, batch_length.
  destruct (decide (w ≠ [] ∧ r ≠ [])) as [[Hw Hr]|Hno].
  - eexists _, _. split.
    + rewrite Tx_assemble_combined by done. cbv zeta. do 2 f_equal. lia.
    + unfold len. rewrite !length_app. fold (len r).
      pose proof (length_encode_write_ops (direction d)
                    (address_byte addr false :: w)) as Hw1.
      pose proof (length_encode_write_ops (idle_direction (direction d))
                    [address_byte addr true]) as Hw2.
      pose proof (length_encode_read_ops (idle_direction (direction d))
                    (length r)) as Hr1.
      destruct (length_encode_pins (direction d)) as (Hp1 & Hp2 & _).
      destruct (length_encode_pins (idle_direction (direction d)))
        as (Hp3 & Hp4 & Hp5).
      unfold len in *. cbn [length] in Hw1, Hw2. lia.
  - eexists _, _. split.
    + rewrite Tx_assemble_single; [do 2 f_equal; lia|].
      destruct w; [by left|]. destruct r; [by right|].
      exfalso. by apply Hno.
    + rewrite !encode_all_app. unfold len. rewrite !length_app.
      pose proof (length_encode_write_ops (direction d)
                    (address_byte addr false :: w)) as Hw1.
      destruct (length_encode_pins (direction d)) as (Hp1 & Hp2 & _).
      unfold len in *. cbn [length] in Hw1. lia.
Qed.

(** ** Further statements: transactions *)

Lemma verify_acks_result readBuff k iCnt :
  0 ≤ iCnt → iCnt + Z.of_nat k ≤ len readBuff →
  verify_acks readBuff k iCnt = Continue tt
  ∨ verify_acks readBuff k iCnt = Return ErrGotNAK.
Proof.
  revert iCnt. induction k as [|k IH]; intros iCnt H0 Hlen; [by left|].
  cbn [verify_acks].
  destruct (index_lt readBuff iCnt) as [b Hb]; [lia|]. rewrite Hb.
  case_decide; [by right|]. apply IH; lia.
Qed.

Lemma len_nonneg (s : list Z) : 0 ≤ len s.
Proof. unfold len. lia. Qed.

Lemma response_count_pos w r : 1 ≤ response_count w r.
Proof.
  unfold response_count. pose proof (len_nonneg w). pose proof (len_nonneg r).
  case_decide; lia.
Qed.

Lemma transactionEnd_cases w cnt r d :
  0 ≤ cnt →
  (∃ code, transactionEnd w cnt r d
           = Returns (r, Some (ErrHandle code)) (set_h (h d ++ [Flush]) d))
  ∨ (∃ code, transactionEnd w cnt r d
             = Returns (r, Some (ErrHandle code))
                 (set_h (h d ++ [Flush; Write (w ++ [flush oc])]) d))
  ∨ (∃ code, transactionEnd w cnt r d
             = Returns (r, Some (ErrHandle code))
                 (set_h (h d ++ transaction_calls w cnt) d))
  ∨ (∃ data, delivers (h d) w cnt data).
Proof.
  intros Hcnt. unfold delivers.
  destruct (env (h d ++ [Flush])) as [x1|code] eqn:Hflush.
  - destruct (env ((h d ++ [Flush]) ++ [Write (w ++ [flush oc])]))
      as [x2|code] eqn:Hwrite.
    + destruct (env (((h d ++ [Flush]) ++ [Write (w ++ [flush oc])])
                     ++ [ReadAll cnt])) as [data|code] eqn:Hread.
      * do 3 right. by exists data.
      * right. right. left. exists code.
        unfold transactionEnd. run. cbn [app].
        rewrite Hflush. rewrite decide_False by lia.
        rewrite !h_set_h, Hwrite. rewrite !h_set_h, Hread.
        rewrite !set_h_set_h. unfold transaction_calls.
        by rewrite <- !app_assoc.
    + right. left. exists code.
      unfold transactionEnd. run. cbn [app].
      rewrite Hflush. rewrite decide_False by lia.
      rewrite !h_set_h, Hwrite. rewrite !set_h_set_h.
      by rewrite <- !app_assoc.
  - left. exists code. unfold transactionEnd. run. by rewrite Hflush.
Qed.

(** Every way a transaction ends, for a count that is not negative. *)
Lemma transactionEnd_result w cnt r d :
  0 ≤ cnt →
  (∃ e calls,
      transactionEnd w cnt r d = Returns (r, Some e) (set_h (h d ++ calls) d)
      ∧ (kind_of e = NakReceived ∨ kind_of e = TransportError)
      ∧ calls ≠ [] ∧ calls `prefix_of` transaction_calls w cnt)
  ∨ (len r ≤ cnt
     ∧ ∃ r', transactionEnd w cnt r d
             = Returns (r', None) (set_h (h d ++ transaction_calls w cnt) d)
             ∧ length r' = length r)
  ∨ (cnt < len r ∧ transactionEnd w cnt r d = Panics).
Proof.
  intros Hcnt. pose proof (len_nonneg r) as Hr.
  destruct (transactionEnd_cases w cnt r d Hcnt)
    as [[code Hrun] | [[code Hrun] | [[code Hrun] | [data Hdel]]]].
  - left. exists (ErrHandle code), [Flush]. rewrite Hrun.
    split; [done|]. split; [by right|]. split; [done|].
    by exists [Write (w ++ [flush oc]); ReadAll cnt].
  - left. exists (ErrHandle code), [Flush; Write (w ++ [flush oc])].
    rewrite Hrun. split; [done|]. split; [by right|]. split; [done|].
    by exists [ReadAll cnt].
  - left. exists (ErrHandle code), (transaction_calls w cnt). rewrite Hrun.
    split; [done|]. split; [by right|]. split; [done|]. done.
  - rewrite (transactionEnd_delivered _ _ _ _ data) by done. cbv zeta.
    destruct (verify_acks_result (filled (Z.to_nat cnt) data)
                (Z.to_nat (cnt - len r)) 0) as [-> | ->];
      [lia | rewrite len_filled by lia; lia | |].
    + destruct (decide (len r ≤ cnt)) as [Hle|Hgt].
      * right. left. split; [done|].
        rewrite set_recv_whole by (by rewrite ?len_filled by lia).
        eexists. split; [done|].
        rewrite length_drop, length_filled. unfold len in *. lia.
      * right. right. split; [lia|]. by rewrite set_recv_panics by lia.
    + left. exists ErrGotNAK, (transaction_calls w cnt).
      split; [done|]. split; [by left|]. done.
Qed.

Lemma set_direction_id d : set_direction (direction d) d = d.
Proof. by destruct d. Qed.

Lemma Tx_assemble_bus addr w r d :
  ∃ batch d1,
    Tx_assemble addr w r d = Returns (batch, response_count w r) d1
    ∧ h d1 = h d ∧ usingI2C d1 = usingI2C d ∧ pullUp d1 = pullUp d
    ∧ (direction d1 = direction d
       ∨ direction d1 = idle_direction (direction d)).
Proof.
  unfold response_count.
  destruct (decide (w ≠ [] ∧ r ≠ [])) as [[Hw Hr]|Hno].
  - eexists _, _. split.
    + rewrite Tx_assemble_combined by done. cbv zeta. do 2 f_equal. lia.
    + cbn [h usingI2C pullUp direction set_direction]. by eauto.
  - eexists _, _. split.
    + rewrite Tx_assemble_single; [do 2 f_equal; lia|].
      destruct w; [by left|]. destruct r; [by right|].
      exfalso. by apply Hno.
    + by eauto.
Qed.

(** X4.  Whenever [Tx] returns an error, the read buffer comes back as it
    was passed, and the error is "got NAK" or one the handle returned. *)
Theorem Tx_error_keeps_read_buffer addr w r d r' e d' :
  Tx addr w r d = Returns (r', Some e) d' →
  r' = r ∧ (kind_of e = NakReceived ∨ kind_of e = TransportError).
Proof.
  intros Hrun.
  destruct (Tx_assemble_bus addr w r d) as (batch & d1 & Hasm & _).
  rewrite (Tx_unfold _ _ _ _ _ _ _ Hasm) in Hrun.
  pose proof (response_count_pos w r) as Hpos.
  destruct (transactionEnd_result batch (response_count w r) r d1)
    as [(e0 & calls & Hend & Hkind & _) | [(_ & r0 & Hend & _) | [_ Hend]]];
    [lia | | |]; rewrite Hend in Hrun; [|done|done].
  by injection Hrun as <- <- _.
Qed.

(** X5.  [Tx] returns, whatever the adapter answers, unless it is a pure
    read of two bytes or more; and the buffer it returns has the length of
    the one it was passed. *)
Theorem Tx_returns addr w r d :
  w ≠ [] ∨ len r ≤ 1 →
  ∃ r' e d', Tx addr w r d = Returns (r', e) d' ∧ length r' = length r.
Proof.
  intros Hwr.
  destruct (Tx_assemble_bus addr w r d) as (batch & d1 & Hasm & _).
  rewrite (Tx_unfold _ _ _ _ _ _ _ Hasm).
  pose proof (response_count_pos w r) as Hpos.
  assert (len r ≤ response_count w r) as Hle.
  { destruct Hwr as [Hw|Hr]; [|lia].
    unfold response_count. pose proof (len_nonneg w).
    case_decide as Hno; [lia|].
    destruct r as [|b r]; [unfold len; cbn [length]; lia|].
    exfalso. by apply Hno. }
  destruct (transactionEnd_result batch (response_count w r) r d1)
    as [(e0 & calls & Hend & _) | [(_ & r0 & Hend & Hlen) | [Hlt _]]];
    [lia | | | lia]; rewrite Hend; by eauto.
Qed.

(** X6.  Whatever [Tx] returns, it has made a flush, then at most one
    write, of the whole batch followed by the flush opcode, then at most
    one read, of exactly the counted number of bytes, and no other call on
    the handle; it leaves [usingI2C] and [pullUp] alone. *)
Theorem Tx_calls addr w r d res d' :
  Tx addr w r d = Returns res d' →
  ∃ batch d1 calls,
    Tx_assemble addr w r d = Returns (batch, response_count w r) d1
    ∧ h d' = h d ++ calls
    ∧ calls ≠ []
    ∧ calls `prefix_of` transaction_calls batch (response_count w r)
    ∧ usingI2C d' = usingI2C d ∧ pullUp d' = pullUp d
    ∧ direction d' = direction d1.
Proof.
  intros Hrun.
  destruct (Tx_assemble_bus addr w r d)
    as (batch & d1 & Hasm & Hh & Hu & Hp & _).
  rewrite (Tx_unfold _ _ _ _ _ _ _ Hasm) in Hrun.
  pose proof (response_count_pos w r) as Hpos.
  exists batch, d1.
  destruct (transactionEnd_result batch (response_count w r) r d1)
    as [(e0 & calls & Hend & _ & Hne & Hpre)
       | [(_ & r0 & Hend & _) | [_ Hend]]];
    [lia | | |]; rewrite Hend in Hrun; [| |done].
  - injection Hrun as _ <-. exists calls.
    cbn [h usingI2C pullUp direction set_h]. by rewrite Hh.
  - injection Hrun as _ <-. exists (transaction_calls batch (response_count w r)).
    cbn [h usingI2C pullUp direction set_h]. by rewrite Hh.
Qed.

(** X7.  A transaction with nothing to write and nothing to read probes the
    address: once the adapter has answered, [Tx] returns "got NAK" if the
    one response byte has bit 0 set and no error otherwise. *)
Theorem Tx_probe addr d data :
  let batch :=
    encode_all (start_ops (direction d)
                ++ write_ops (direction d) [address_byte addr false]
                ++ stop_ops (direction d)) in
  delivers (h d) batch 1 data →
  Tx addr [] [] d =
    Returns ([], if decide (nak_among 1 data) then Some ErrGotNAK else None)
            (set_h (h d ++ transaction_calls batch 1) d).
Proof.
  intros batch Hdel.
  rewrite (Tx_unfold _ _ _ _ batch 1 d)
    by (by rewrite Tx_assemble_single by (by left)).
  unfold nak_among.
  destruct (filled 1 data) as [|b [|b' rest]] eqn:Hresp;
    [by pose proof (length_filled 1 data) as Hl; rewrite Hresp in Hl
    | | by pose proof (length_filled 1 data) as Hl; rewrite Hresp in Hl].
  case_decide as Hnak.
  - apply (transactionEnd_nak _ _ _ _ data); [done|].
    apply Exists_cons in Hnak as [Hb|Hnil]; [|by apply Exists_nil in Hnil].
    exists 0, b. change (Z.to_nat 1) with 1%nat. rewrite Hresp.
    split; [unfold len; cbn [length]; lia|]. done.
  - rewrite (transactionEnd_copies _ _ _ _ data); [| done | done |];
      change (Z.to_nat 1) with 1%nat.
    + by rewrite Hresp.
    + rewrite Hresp. intros i x Hi. unfold len in Hi. cbn [length] in Hi.
      assert (i = 0) as -> by lia. intros [= <-].
      destruct (nak b) eqn:Hb; [|done].
      exfalso. apply Hnak. by left.
Qed.

(** X8.  Framing a 7-bit address loses nothing: the framed byte is a byte,
    its bit 0 is the direction flag and its upper seven bits are the
    address. *)
Theorem address_byte_roundtrip addr bRead :
  0 ≤ addr < 128 →
  0 ≤ address_byte addr bRead < 256
  ∧ Z.shiftr (address_byte addr bRead) 1 = addr
  ∧ Z.testbit (address_byte addr bRead) 0 = bRead.
Proof.
  intros Haddr. rewrite address_byte_closed, Z.mod_small by lia.
  split; [destruct bRead; lia|]. split.
  - rewrite Z.shiftr_div_pow2 by lia. change (2 ^ 1) with 2.
    destruct bRead; Z.to_euclidean_division_equations; lia.
  - rewrite Z.bit0_odd. destruct bRead.
    + by rewrite Z.add_comm, Z.odd_add_mul_2.
    + rewrite Z.add_0_r. by rewrite Z.odd_mul.
Qed.

(** X9.  A direction mask that idling leaves as it is, such as the one a
    successful [setupI2C] leaves, is kept by [Tx], [SetSpeed] and
    [Close]. *)
Theorem normalized_direction_kept d :
  normalized (direction d) →
  (∀ addr w r res d', Tx addr w r d = Returns res d' →
                      direction d' = direction d)
  ∧ (∀ f e d', SetSpeed f d = Returns e d' → direction d' = direction d)
  ∧ (∀ e d', Close d = Returns e d' → direction d' = direction d).
Proof.
  intros Hnorm. split; [|split].
  - intros addr w r res d' Hrun.
    destruct (Tx_assemble_bus addr w r d)
      as (batch & d1 & Hasm & _ & _ & _ & Hdir).
    rewrite (Tx_unfold _ _ _ _ _ _ _ Hasm) in Hrun.
    pose proof (response_count_pos w r) as Hpos.
    assert (direction d1 = direction d) as <-
      by (destruct Hdir as [-> | ->]; [done | exact Hnorm]).
    destruct (transactionEnd_result batch (response_count w r) r d1)
      as [(e0 & calls & Hend & _) | [(_ & r0 & Hend & _) | [_ Hend]]];
      [lia | | |]; rewrite Hend in Hrun; [| |done];
      by injection Hrun as _ <-.
  - intros f e d'. unfold SetSpeed.
    repeat case_decide; run; by intros [= _ <-].
  - intros e d'. unfold Close, stopI2C. run. by intros [= _ <-].
Qed.

(** ** Further statements: set-up and tear-down *)

Lemma setupI2C_unfold d :
  let hist1 := h d ++ [Write (setup_cmd setup_clk)] in
  let dir' := idle_direction (direction d) in
  let hist2 := hist1 ++ [Write (encode_all (idle_ops dir') ++ [flush oc])] in
  let d2 :=
    {| direction := dir'; usingI2C := true; pullUp := false; h := hist2 |} in
  setupI2C false d =
  match env hist1 with
  | Fail code => Returns (Some (ErrHandle code)) (set_h hist1 d)
  | Done _ =>
      match env hist2 with
      | Fail code => Returns (Some (ErrHandle code)) d2
      | Done _ => Returns None d2
      end
  end.
Proof.
  cbv zeta. unfold setupI2C. run. rewrite setup_clk_value.
  repeat match goal with
         | |- context [Write ?c] =>
             progress change c with (setup_cmd 49)
         end.
  destruct (env (h d ++ [Write (setup_cmd 49)])) as [x|code]; [|done].
  rewrite setI2CLinesIdle_ops. cbv beta iota.
  cbn [h direction set_h set_direction set_usingI2C set_pullUp].
  by destruct (env _).
Qed.

(** X10.  When the adapter accepts both writes, [setupI2C] returns no error
    and leaves the bus in I2C mode, without pull-up, with D0 and D1 outputs
    and D2 an input in a direction mask that idling no longer changes,
    having written the clock set-up and then the idle levels followed by
    the flush opcode. *)
Theorem setupI2C_success d :
  let hist1 := h d ++ [Write (setup_cmd setup_clk)] in
  let dir' := idle_direction (direction d) in
  let hist2 := hist1 ++ [Write (encode_all (idle_ops dir') ++ [flush oc])] in
  err_of (env hist1) = None → err_of (env hist2) = None →
  ∃ d', setupI2C false d = Returns None d'
        ∧ usingI2C d' = true ∧ pullUp d' = false
        ∧ direction d' = dir' ∧ normalized (direction d')
        ∧ h d' = hist2.
Proof.
  intros hist1 dir' hist2 H1 H2.
  apply err_of_None in H1 as [x1 H1]. apply err_of_None in H2 as [x2 H2].
  pose proof (setupI2C_unfold d) as Hrun. cbv zeta in Hrun.
  fold hist1 dir' hist2 in Hrun. rewrite H1, H2 in Hrun.
  eexists. split; [exact Hrun|]. cbn [usingI2C pullUp direction h].
  repeat split. apply idle_direction_idempotent.
Qed.

(** X11.  The three ways [setupI2C] fails.  Asked for pull-up it refuses
    without touching the bus or the adapter.  When the adapter rejects the
    first write, only the history of the bus changes.  When it rejects the
    second, the bus is already marked as being in I2C mode although the
    set-up failed. *)
Theorem setupI2C_errors p d e d' :
  setupI2C p d = Returns (Some e) d' →
  let hist1 := h d ++ [Write (setup_cmd setup_clk)] in
  (p = true ∧ e = ErrPullUp ∧ d' = d)
  ∨ (p = false ∧ kind_of e = TransportError ∧ d' = set_h hist1 d)
  ∨ (p = false ∧ kind_of e = TransportError
     ∧ usingI2C d' = true ∧ pullUp d' = false
     ∧ direction d' = idle_direction (direction d)
     ∧ ∃ cmd, h d' = hist1 ++ [Write cmd]).
Proof.
  intros Hrun hist1. destruct p.
  - left. unfold setupI2C in Hrun. by injection Hrun as <- <-.
  - right. pose proof (setupI2C_unfold d) as Hun. cbv zeta in Hun.
    fold hist1 in Hun. rewrite Hun in Hrun. clear Hun.
    destruct (env hist1) as [x1|code].
    + right. destruct (env _) as [x2|code]; [done|].
      injection Hrun as <- <-. cbn [usingI2C pullUp direction h].
      repeat split. by eexists.
    + left. by injection Hrun as <- <-.
Qed.

(** X12.  [setupI2C] followed by [Close], every write accepted: the bus is
    out of I2C mode again, the adapter has received the clock set-up, the
    idle levels and the reset, in this order, and the reset includes the
    tristate bytes whatever [pullUp] was before the set-up. *)
Theorem setupI2C_then_Close d :
  let hist1 := h d ++ [Write (setup_cmd setup_clk)] in
  let dir' := idle_direction (direction d) in
  let hist2 := hist1 ++ [Write (encode_all (idle_ops dir') ++ [flush oc])] in
  let hist3 := hist2 ++ [Write (stop_cmd false)] in
  err_of (env hist1) = None → err_of (env hist2) = None →
  err_of (env hist3) = None →
  ∃ d1 d2, setupI2C false d = Returns None d1
           ∧ Close d1 = Returns None d2
           ∧ usingI2C d2 = false ∧ pullUp d2 = false
           ∧ direction d2 = dir' ∧ h d2 = hist3
           ∧ stop_cmd false = [ clock2Phase oc; clock30MHz oc; 0; 0;
                                dataTristate oc; 0; 0 ].
Proof.
  intros hist1 dir' hist2 hist3 H1 H2 H3.
  apply err_of_None in H1 as [x1 H1]. apply err_of_None in H2 as [x2 H2].
  pose proof (setupI2C_unfold d) as Hrun. cbv zeta in Hrun.
  fold hist1 dir' hist2 in Hrun. rewrite H1, H2 in Hrun.
  eexists _, _. split; [exact Hrun|].
  unfold Close, stopI2C. run.
  cbn [pullUp h negb usingI2C set_usingI2C set_h direction app].
  subst hist3. unfold stop_cmd in *. cbn [app] in *.
  by rewrite H3.
Qed.

(** ** Further statements: the byte transfers outside [Tx] *)

Lemma range_acks_Exists readBuff :
  range_acks readBuff
  = if decide (Exists (λ b, nak b = true) readBuff) then Some ErrGotNAK
    else None.
Proof.
  induction readBuff as [|b rest IH]; cbn [range_acks].
  - by rewrite decide_False by (by intros ?%Exists_nil).
  - destruct (decide (Z.land b 1 ≠ 0)) as [Hb|Hb].
    + apply nak_land in Hb. by rewrite decide_True by (by left).
    + rewrite IH. assert (nak b ≠ true) as Hnb by (by rewrite <- nak_land).
      destruct (decide (Exists (λ b, nak b = true) rest)) as [Hrest|Hrest].
      * by rewrite decide_True by (by right).
      * rewrite decide_False; [done|].
        by intros [?|?]%Exists_cons.
Qed.

Lemma writeBytes_frames value dir w :
  foldl (λ cmdfull c,
           ((cmdfull ++ [Z.lor (dataOut oc) (dataOutFall oc); 0; 0]) ++ [c])
           ++ [ gpioSetD oc; Z.lor value i2cSDAOut; dir;
                gpioSetD oc; Z.lor value i2cSDAOut; dir;
                gpioSetD oc; Z.lor value i2cSDAOut; dir;
                gpioSetD oc; Z.lor value i2cSDAOut; dir;
                Z.lor (dataIn oc) (dataBit oc); 0 ]) [] w
  = flat_map (legacy_write_frame value dir) w.
Proof. by rewrite (foldl_frames (legacy_write_frame value dir)). Qed.

(** X13.  [writeBytes] flushes, writes one frame per byte followed by the
    flush opcode, reads back one byte per byte written and checks every one
    of them: once the adapter has answered, it returns "got NAK" if and
    only if some response byte has bit 0 set.  For an empty slice it writes
    the flush opcode alone and returns no error. *)
Theorem writeBytes_acks value w d data :
  let cmd := flat_map (legacy_write_frame value (direction d)) w in
  delivers (h d) cmd (len w) data →
  writeBytes value w d =
    Returns (if decide (nak_among (length w) data) then Some ErrGotNAK
             else None)
            (set_h (h d ++ transaction_calls cmd (len w)) d).
Proof.
  intros cmd (Hflush & Hwrite & Hread).
  apply err_of_None in Hflush as [x1 Hflush].
  apply err_of_None in Hwrite as [x2 Hwrite].
  unfold writeBytes. run. rewrite writeBytes_frames. fold cmd.
  rewrite Hflush. rewrite !h_set_h, Hwrite. rewrite !h_set_h, Hread.
  rewrite !set_h_set_h, range_acks_Exists.
  unfold transaction_calls, nak_among. by rewrite <- !app_assoc.
Qed.

Lemma verify_acks_range readBuff k iCnt :
  0 ≤ iCnt → Z.of_nat k = len readBuff - iCnt →
  verify_acks readBuff k iCnt
  = match range_acks (drop (Z.to_nat iCnt) readBuff) with
    | Some e => Return e
    | None => Continue tt
    end.
Proof.
  revert iCnt. induction k as [|k IH]; intros iCnt H0 Hk.
  - cbn [verify_acks]. rewrite drop_ge; [done|]. unfold len in Hk. lia.
  - cbn [verify_acks].
    destruct (index_lt readBuff iCnt) as [b Hb]; [lia|]. rewrite Hb.
    unfold index in Hb. rewrite decide_True in Hb by lia.
    rewrite (drop_S _ _ _ Hb). cbn [range_acks].
    case_decide; [done|]. rewrite IH by lia.
    by replace (Z.to_nat (iCnt + 1)) with (S (Z.to_nat iCnt)) by lia.
Qed.

(** X14.  When the pin values recorded for the bus add nothing to the data
    line bit, [writeBytes] is the write phase of a transaction run on its
    own: it returns what [transactionEnd] returns on the frames of
    [setI2CWriteBytes] with one response byte per byte written and nothing
    to read, and leaves the same bus, whatever the adapter answers. *)
Theorem writeBytes_as_transaction value w d :
  Z.lor value i2cSDAOut = i2cSDAOut →
  writeBytes value w d =
  (cmd ← setI2CWriteBytes w;
   res ← transactionEnd cmd (len w) [];
   ret (snd res)) d.
Proof.
  intros Hv. unfold writeBytes, transactionEnd, setI2CWriteBytes. run.
  rewrite Hv. cbn [app].
  destruct (env (h d ++ [Flush])) as [x1|code]; [|done].
  rewrite decide_False by (unfold len; lia).
  destruct (env _) as [x2|code]; [|done].
  destruct (env _) as [data|code]; [|done].
  change (len []) with 0. rewrite Z.sub_0_r. unfold len. rewrite Nat2Z.id.
  rewrite verify_acks_range
    by (unfold len; rewrite ?length_filled; lia).
  change (Z.to_nat 0) with 0%nat. cbn [drop length set_recv].
  by destruct (range_acks _).
Qed.

Lemma readBytes_frames value dir r :
  readBytes_loop
    [ Z.lor (dataIn oc) (dataBit oc); 7;
      Z.lor (Z.lor (dataOut oc) (dataOutFall oc)) (dataBit oc); 0 ]
    [ gpioSetD oc; Z.lor (Z.lor value i2cSCL) i2cSDAOut; dir ]
    (len r) (length r) 0 []
  = flat_map (legacy_read_frame value dir) (master_acks (length r)).
Proof.
  by rewrite (readBytes_loop_frames (legacy_read_frame value dir))
    by (done || unfold len; lia).
Qed.

Lemma overwritten_full s data :
  length data = length s → overwritten s data = data.
Proof.
  intros Hlen. unfold overwritten.
  rewrite take_app_le by lia. apply take_ge. lia.
Qed.

(** X15.  [readBytes] writes one frame per byte to read, driving ACK after
    every byte but the last and NAK after the last, followed by the flush
    opcode, with no flush call before.  When the adapter rejects the write
    the slice is left as it was and no read is attempted.  When it accepts
    the write and answers the read in full, the slice holds the answer and
    no error is returned, whatever the bytes are. *)
Theorem readBytes_outcomes value r d :
  let cmd :=
    flat_map (legacy_read_frame value (direction d)) (master_acks (length r))
    ++ [flush oc] in
  let hist1 := h d ++ [Write cmd] in
  let hist2 := hist1 ++ [ReadAll (len r)] in
  (∀ code, env hist1 = Fail code →
           readBytes value r d
           = Returns (r, Some (ErrHandle code)) (set_h hist1 d))
  ∧ (∀ data, err_of (env hist1) = None → env hist2 = Done data →
             length data = length r →
             readBytes value r d = Returns (data, None) (set_h hist2 d)).
Proof.
  intros cmd hist1 hist2. split.
  - intros code Hfail. unfold readBytes. run. rewrite readBytes_frames.
    fold cmd hist1. by rewrite Hfail.
  - intros data Hwrite Hread Hlen.
    apply err_of_None in Hwrite as [x Hwrite].
    unfold readBytes. run. rewrite readBytes_frames.
    fold cmd hist1. rewrite Hwrite. rewrite !h_set_h. fold hist2.
    rewrite Hread, set_h_set_h. by rewrite overwritten_full.
Qed.

(** ** Further statements: the pins a batch sets *)

Lemma Forall_flat_map {A B} (P : B → Prop) (f : A → list B) (l : list A) :
  (∀ a, Forall P (f a)) → Forall P (flat_map f l).
Proof.
  intros Hf. induction l as [|a l IH]; cbn [flat_map]; [done|].
  apply Forall_app. by split.
Qed.

Lemma pins_within_ops dirs dir :
  dir ∈ dirs →
  Forall (pins_within dirs) (start_ops dir)
  ∧ Forall (pins_within dirs) (stop_ops dir)
  ∧ Forall (pins_within dirs) (idle_ops dir)
  ∧ (∀ bs, Forall (pins_within dirs) (write_ops dir bs))
  ∧ (∀ n, Forall (pins_within dirs) (read_ops dir n)).
Proof.
  intros Hdir.
  assert (∀ v, 0 ≤ v < 4 → pins_within dirs (SetPins v dir)) as Hpin
    by (by intros v Hv).
  assert (∀ v ops, 0 ≤ v < 4 → Forall (pins_within dirs) ops →
                   Forall (pins_within dirs) (SetPins v dir :: ops)) as Hcons
    by (intros v ops Hv Hops; apply Forall_cons_2; [by apply Hpin | done]).
  split; [|split; [|split; [|split]]].
  - unfold start_ops. cbn [replicate app].
    repeat (apply Hcons; [vm_compute; split; congruence|]). done.
  - unfold stop_ops. cbn [replicate app].
    repeat (apply Hcons; [vm_compute; split; congruence|]). done.
  - unfold idle_ops. cbn [replicate app].
    repeat (apply Hcons; [vm_compute; split; congruence|]). done.
  - intros bs. apply Forall_flat_map. intros c.
    unfold write_frame. cbn [replicate app].
    apply Forall_cons_2; [exact I|].
    repeat (apply Hcons; [vm_compute; split; congruence|]).
    apply Forall_cons_2; [exact I | done].
  - intros n. apply Forall_flat_map. intros a. unfold read_frame.
    apply Forall_cons_2; [exact I|]. apply Forall_cons_2; [exact I|].
    apply Hcons; [vm_compute; split; congruence | done].
Qed.

(** X16.  Every set-pins command of a batch of [Tx] has a value below 4, so
    it drives D2 to D7 low wherever they are outputs, and carries the
    direction mask of the bus, before or after idling. *)
Theorem Tx_pin_values addr w r d :
  distinct_opcodes →
  ∃ batch ops d1,
    Tx_assemble addr w r d = Returns (batch, response_count w r) d1
    ∧ decode batch = Some ops
    ∧ Forall (pins_within [direction d; idle_direction (direction d)]) ops.
Proof.
  intros Hd. unfold response_count.
  set (dirs := [direction d; idle_direction (direction d)]).
  destruct (pins_within_ops dirs (direction d))
    as (Hs1 & Hp1 & _ & Hw1 & _); [by constructor|].
  destruct (pins_within_ops dirs (idle_direction (direction d)))
    as (Hs2 & Hp2 & Hi2 & Hw2 & Hr2); [by do 2 constructor|].
  destruct (decide (w ≠ [] ∧ r ≠ [])) as [[Hw Hr]|Hno].
  - pose proof (Tx_assemble_combined addr w r d Hw Hr) as Hasm.
    cbv zeta in Hasm. rewrite <- !encode_all_app in Hasm.
    eexists _, _, _. split; [|split; [by apply decode_encode_all|]].
    + rewrite Hasm. do 2 f_equal. lia.
    + rewrite !Forall_app. by repeat split.
  - eexists _, _, _. split; [|split; [by apply decode_encode_all|]].
    + rewrite Tx_assemble_single; [do 2 f_equal; lia|].
      destruct w; [by left|]. destruct r; [by right|].
      exfalso. by apply Hno.
    + rewrite !Forall_app. by repeat split.
Qed.

End I2C.

(** ** The statements on concrete transactions *)

Lemma ft232h_distinct : distinct_opcodes ft232h.
Proof.
  unfold distinct_opcodes.
  apply (bool_decide_unpack _). vm_compute. exact I.
Defined.

Lemma Tx_combined_batch_witness :
  (0 ≤ 0x50 < 128 ∧ [0x00] ≠ ([] : list Z) ∧ [0; 0; 0; 0] ≠ ([] : list Z))
  ∧ Tx_assemble ft232h 0x50 [0x00] [0; 0; 0; 0] bus0
    = Returns
        (encode_all ft232h (start_ops 3)
         ++ encode_all ft232h (write_ops 3 [0xA0; 0x00])
         ++ encode_all ft232h (stop_ops 3)
         ++ encode_all ft232h (idle_ops 3)
         ++ encode_all ft232h (start_ops 3)
         ++ encode_all ft232h (write_ops 3 [0xA1])
         ++ encode_all ft232h (read_ops 3 4)
         ++ encode_all ft232h (stop_ops 3),
         7)
        bus0.
Proof.
  split; [split; [lia | split; discriminate]|].
  apply (Tx_combined_batch ft232h (env_const (Done [])) 0x50 [0x00]
           [0; 0; 0; 0] bus0); [lia | discriminate | discriminate].
Defined.

Lemma Tx_nak_leaves_read_buffer_witness :
  let env := env_const (Done [0; 1; 0; 7; 8]) in
  let batch := batch_of (Tx_assemble ft232h 0x50 [0x00] [9; 9] bus0) in
  (Tx_assemble ft232h 0x50 [0x00] [9; 9] bus0 = Returns (batch, 5) bus0
   ∧ delivers ft232h env (h bus0) batch 5 [0; 1; 0; 7; 8]
   ∧ nak_in_region (filled 5 [0; 1; 0; 7; 8]) 5 [9; 9])
  ∧ Tx ft232h env 0x50 [0x00] [9; 9] bus0
    = Returns ([9; 9], Some ErrGotNAK)
              (set_h (transaction_calls ft232h batch 5) bus0).
Proof.
  intros env batch.
  assert (nak_in_region (filled 5 [0; 1; 0; 7; 8]) 5 [9; 9]) as Hnak.
  { exists 1, 1. split; [unfold len; cbn [length]; lia|].
    split; reflexivity. }
  assert (delivers ft232h env (h bus0) batch 5 [0; 1; 0; 7; 8]) as Hdel
    by (repeat split).
  split; [split; [reflexivity | split; [exact Hdel | exact Hnak]]|].
  apply (Tx_nak_leaves_read_buffer ft232h env 0x50 [0x00] [9; 9] bus0
           batch 5 bus0 [0; 1; 0; 7; 8] eq_refl Hdel Hnak).
Defined.

Lemma Tx_copies_response_tail_witness :
  let env := env_const (Done [0; 0; 0; 1; 2; 3; 4]) in
  let batch := batch_of (Tx_assemble ft232h 0x50 [0x00] [9; 9; 9; 9] bus0) in
  ([0x00] ≠ ([] : list Z) ∨ [9; 9; 9; 9] = ([] : list Z))
  ∧ Tx_assemble ft232h 0x50 [0x00] [9; 9; 9; 9] bus0
    = Returns (batch, 7) bus0
  ∧ delivers ft232h env (h bus0) batch 7 [0; 0; 0; 1; 2; 3; 4]
  ∧ region_acked (filled 7 [0; 0; 0; 1; 2; 3; 4]) 7 [9; 9; 9; 9]
  ∧ ∃ r',
      Tx ft232h env 0x50 [0x00] [9; 9; 9; 9] bus0
      = Returns (r', None) (set_h (transaction_calls ft232h batch 7) bus0)
      ∧ r' = [1; 2; 3; 4].
Proof.
  intros env batch.
  assert ([0x00] ≠ ([] : list Z) ∨ [9; 9; 9; 9] = ([] : list Z)) as Hwr
    by (left; discriminate).
  assert (delivers ft232h env (h bus0) batch 7 [0; 0; 0; 1; 2; 3; 4]) as Hdel
    by (repeat split).
  assert (region_acked (filled 7 [0; 0; 0; 1; 2; 3; 4]) 7 [9; 9; 9; 9])
    as Hack.
  { intros i b Hi. unfold len in Hi. cbn [length] in Hi.
    assert (i = 0 ∨ i = 1 ∨ i = 2) as [-> | [-> | ->]] by lia;
      intros [= <-]; reflexivity. }
  split; [exact Hwr|]. split; [reflexivity|].
  split; [exact Hdel|]. split; [exact Hack|].
  destruct (Tx_copies_response_tail ft232h env 0x50 [0x00] [9; 9; 9; 9] bus0
              batch 7 bus0 [0; 0; 0; 1; 2; 3; 4] Hwr eq_refl Hdel Hack)
    as (r' & Hrun & _ & Hr' & _).
  exists r'. split; [exact Hrun | exact Hr'].
Defined.

(** C5 as stated fails on a pure read of two bytes: the adapter answers, the
    acknowledgment region is empty and so holds no NAK, and [Tx] panics
    instead of returning. *)
Lemma Tx_pure_read_two_bytes_panics :
  let env := env_const (Done [0x00]) in
  let batch := batch_of (Tx_assemble ft232h 0x50 [] [0xAA; 0xBB] bus0) in
  Tx_assemble ft232h 0x50 [] [0xAA; 0xBB] bus0 = Returns (batch, 1) bus0
  ∧ delivers ft232h env (h bus0) batch 1 [0x00]
  ∧ region_acked (filled 1 [0x00]) 1 [0xAA; 0xBB]
  ∧ Tx ft232h env 0x50 [] [0xAA; 0xBB] bus0 = Panics.
Proof.
  intros env batch. split; [reflexivity|]. split; [repeat split|].
  split; [|reflexivity].
  intros i b Hi. unfold len in Hi. cbn [length] in Hi. lia.
Qed.

(** C3.  A pure read into a one-byte buffer, answered by an adapter whose
    device acknowledges (response byte 0x00): [Tx] requests one byte,
    returns no error, and the buffer no longer holds 0xAA but the
    acknowledgment byte. *)
Theorem Tx_pure_read_overwrites_buffer :
  let env := env_const (Done [0x00]) in
  let batch := batch_of (Tx_assemble ft232h 0x50 [] [0xAA] bus0) in
  Tx_assemble ft232h 0x50 [] [0xAA] bus0 = Returns (batch, 1) bus0
  ∧ Tx ft232h env 0x50 [] [0xAA] bus0
    = Returns ([0x00], None) (set_h (transaction_calls ft232h batch 1) bus0).
Proof. split; reflexivity. Qed.

Lemma SetSpeed_range_witness :
  (100 * physic.Hertz ≤ 400 * physic.KiloHertz ≤ 10 * physic.MegaHertz
   ∧ SetSpeed (env_const (Done [])) (400 * physic.KiloHertz) bus0
     = Returns None (set_h [MPSSEClock 266666666666] bus0))
  ∧ (50 * physic.Hertz < 100 * physic.Hertz
     ∧ ∃ e, SetSpeed (env_const (Done [])) (50 * physic.Hertz) bus0
            = Returns (Some e) bus0
            ∧ kind_of e = OutOfRange).
Proof.
  assert (100 * physic.Hertz ≤ 400 * physic.KiloHertz ≤ 10 * physic.MegaHertz)
    as Hin by (vm_compute; split; discriminate).
  assert (50 * physic.Hertz < 100 * physic.Hertz) as Hout by reflexivity.
  split; (split; [done|]).
  - apply (proj1 (SetSpeed_range (env_const (Done []))
                    (400 * physic.KiloHertz) bus0) Hin).
  - apply (proj2 (SetSpeed_range (env_const (Done []))
                    (50 * physic.Hertz) bus0) (or_intror Hout)).
Defined.

Lemma Tx_write_only_acks_witness :
  (distinct_opcodes ft232h ∧ [0x10; 0x20] ≠ ([] : list Z))
  ∧ ∃ batch ops,
      Tx_assemble ft232h 0x50 [0x10; 0x20] [] bus0 = Returns (batch, 3) bus0
      ∧ decode ft232h batch = Some ops
      ∧ count is_ack_check ops = 3
      ∧ count is_read ops = 0.
Proof.
  split; [split; [exact ft232h_distinct | discriminate]|].
  destruct (Tx_write_only_acks ft232h (env_const (Done [])) 0x50
              [0x10; 0x20] bus0 ft232h_distinct)
    as (batch & ops & Hasm & _ & Hdec & Hack & Hread); [discriminate|].
  exists batch, ops. repeat split; assumption.
Defined.

Lemma setI2CReadBytes_master_acks_witness :
  1 ≤ 4
  ∧ driven_bits (flat_map (read_frame 3) [0x00; 0x00; 0x00; 0xFF])
    = [false; false; false; true].
Proof.
  split; [lia|].
  apply (setI2CReadBytes_master_acks ft232h 4 bus0). lia.
Defined.

Lemma Tx_ignores_upper_address_bits_witness :
  0x50 mod 128 = 0xD0 mod 128
  ∧ Tx ft232h (env_const (Done [0; 0; 0; 7])) 0x50 [0x00] [9] bus0
    = Tx ft232h (env_const (Done [0; 0; 0; 7])) 0xD0 [0x00] [9] bus0.
Proof.
  split; [reflexivity|].
  apply (Tx_ignores_upper_address_bits ft232h
           (env_const (Done [0; 0; 0; 7])) 0x50 0xD0 [0x00] [9] bus0).
  reflexivity.
Defined.

(** C9 as stated fails when the adapter stops answering between the two
    calls: the first [Close] returns no error, the second returns the
    adapter's error. *)
Lemma Close_twice_unplugged :
  let reset := Write (stop_cmd ft232h false) in
  let d1 := set_usingI2C false (set_h [reset] bus0) in
  let d2 := set_usingI2C false (set_h [reset; reset] bus0) in
  Close ft232h (env_unplugged 1) bus0 = Returns None d1
  ∧ Close ft232h (env_unplugged 1) d1 = Returns (Some (ErrHandle 5)) d2.
Proof. split; reflexivity. Qed.

(** ** The further statements on concrete runs *)

Lemma Tx_error_keeps_read_buffer_witness :
  Tx ft232h (env_unplugged 0) 0x50 [0x01] [9; 9] bus0
  = Returns ([9; 9], Some (ErrHandle 5)) (set_h [Flush] bus0)
  ∧ kind_of (ErrHandle 5) = TransportError.
Proof.
  assert (Tx ft232h (env_unplugged 0) 0x50 [0x01] [9; 9] bus0
          = Returns ([9; 9], Some (ErrHandle 5)) (set_h [Flush] bus0)) as Hrun
    by reflexivity.
  split; [exact Hrun|].
  destruct (Tx_error_keeps_read_buffer ft232h (env_unplugged 0) 0x50 [0x01]
              [9; 9] bus0 [9; 9] (ErrHandle 5) (set_h [Flush] bus0) Hrun)
    as [_ [Hk | Hk]]; [discriminate Hk | exact Hk].
Defined.

Lemma Tx_returns_witness :
  ([0x01] ≠ ([] : list Z) ∨ len [9; 9] ≤ 1)
  ∧ ∃ r' e d',
      Tx ft232h (env_const (Done [0; 0; 0; 7; 8])) 0x50 [0x01] [9; 9] bus0
      = Returns (r', e) d'
      ∧ length r' = 2%nat.
Proof.
  assert ([0x01] ≠ ([] : list Z) ∨ len [9; 9] ≤ 1) as Hwr
    by (left; discriminate).
  split; [exact Hwr|].
  exact (Tx_returns ft232h (env_const (Done [0; 0; 0; 7; 8])) 0x50 [0x01]
           [9; 9] bus0 Hwr).
Defined.

Lemma Tx_calls_witness :
  let env := env_unplugged 2 in
  let batch := batch_of (Tx_assemble ft232h 0x50 [0x01] [] bus0) in
  Tx ft232h env 0x50 [0x01] [] bus0
  = Returns ([], Some (ErrHandle 5))
            (set_h (transaction_calls ft232h batch 2) bus0)
  ∧ ∃ calls,
      transaction_calls ft232h batch 2 = calls
      ∧ calls `prefix_of` transaction_calls ft232h batch 2.
Proof.
  intros env batch.
  assert (Tx ft232h env 0x50 [0x01] [] bus0
          = Returns ([], Some (ErrHandle 5))
                    (set_h (transaction_calls ft232h batch 2) bus0)) as Hrun
    by reflexivity.
  split; [exact Hrun|].
  destruct (Tx_calls ft232h env 0x50 [0x01] [] bus0 _ _ Hrun)
    as (batch' & d1 & calls & Hasm & Hh & _ & Hpre & _).
  injection Hasm as <- _. exists calls. split; [|exact Hpre].
  cbn [h set_h bus0 app] in Hh. exact Hh.
Defined.

Lemma Tx_probe_witness :
  let env := env_const (Done [0x01]) in
  let batch := batch_of (Tx_assemble ft232h 0x50 [] [] bus0) in
  delivers ft232h env (h bus0) batch 1 [0x01]
  ∧ ∃ e, Tx ft232h env 0x50 [] [] bus0
         = Returns ([], e) (set_h (transaction_calls ft232h batch 1) bus0).
Proof.
  intros env batch.
  assert (delivers ft232h env (h bus0) batch 1 [0x01]) as Hdel
    by (repeat split).
  split; [exact Hdel|]. eexists.
  exact (Tx_probe ft232h env 0x50 bus0 [0x01] Hdel).
Defined.

Lemma address_byte_roundtrip_witness :
  0 ≤ 0x50 < 128
  ∧ Z.shiftr (address_byte 0x50 true) 1 = 0x50
  ∧ Z.testbit (address_byte 0x50 true) 0 = true.
Proof.
  assert (0 ≤ 0x50 < 128) as Haddr by lia.
  split; [exact Haddr|].
  exact (proj2 (address_byte_roundtrip 0x50 true Haddr)).
Defined.

Lemma normalized_direction_kept_witness :
  normalized (direction bus0)
  ∧ ∀ res d',
      Tx ft232h (env_const (Done [0; 0; 0; 7])) 0x50 [0x00] [9] bus0
      = Returns res d' →
      direction d' = direction bus0.
Proof.
  assert (normalized (direction bus0)) as Hnorm by reflexivity.
  split; [exact Hnorm|].
  exact (proj1 (normalized_direction_kept ft232h
                  (env_const (Done [0; 0; 0; 7])) bus0 Hnorm)
           0x50 [0x00] [9]).
Defined.

Lemma setupI2C_success_witness :
  ∃ d', setupI2C ft232h (env_const (Done [])) false bus0 = Returns None d'
        ∧ usingI2C d' = true ∧ pullUp d' = false.
Proof.
  destruct (setupI2C_success ft232h (env_const (Done [])) bus0
              eq_refl eq_refl) as (d' & Hrun & Hu & Hp & _).
  exists d'. split; [exact Hrun|]. split; [exact Hu | exact Hp].
Defined.

Lemma setupI2C_errors_witness :
  setupI2C ft232h (env_unplugged 1) false bus0
  = Returns (Some (ErrHandle 5))
      {| direction := 3; usingI2C := true; pullUp := false;
         h := [ Write (setup_cmd ft232h 49);
                Write (encode_all ft232h (idle_ops 3) ++ [flush ft232h]) ] |}
  ∧ (false = true ∨ false = false).
Proof.
  split; [reflexivity|].
  destruct (setupI2C_errors ft232h (env_unplugged 1) false bus0
              (ErrHandle 5) _ eq_refl) as [(Hp & _) | [(Hp & _) | (Hp & _)]];
    [left | right | right]; exact Hp.
Defined.

Lemma setupI2C_then_Close_witness :
  ∃ d1 d2,
    setupI2C ft232h (env_const (Done [])) false bus0 = Returns None d1
    ∧ Close ft232h (env_const (Done [])) d1 = Returns None d2
    ∧ usingI2C d2 = false.
Proof.
  destruct (setupI2C_then_Close ft232h (env_const (Done [])) bus0
              eq_refl eq_refl eq_refl)
    as (d1 & d2 & Hs & Hc & Hu & _).
  exists d1, d2. split; [exact Hs|]. split; [exact Hc | exact Hu].
Defined.

Lemma writeBytes_acks_witness :
  let env := env_const (Done [0; 1]) in
  let cmd := flat_map (legacy_write_frame ft232h 0 3) [5; 6] in
  delivers ft232h env (h bus0) cmd 2 [0; 1]
  ∧ writeBytes ft232h env 0 [5; 6] bus0
    = Returns (Some ErrGotNAK)
              (set_h (transaction_calls ft232h cmd 2) bus0).
Proof.
  intros env cmd.
  assert (delivers ft232h env (h bus0) cmd 2 [0; 1]) as Hdel
    by (repeat split).
  split; [exact Hdel|].
  exact (writeBytes_acks ft232h env 0 [5; 6] bus0 [0; 1] Hdel).
Defined.

Lemma writeBytes_as_transaction_witness :
  Z.lor 0 i2cSDAOut = i2cSDAOut
  ∧ writeBytes ft232h (env_const (Done [0; 0])) 0 [5; 6] bus0
    = Returns None
        (set_h (transaction_calls ft232h
                  (encode_all ft232h (write_ops 3 [5; 6])) 2) bus0).
Proof.
  split; [reflexivity|].
  rewrite (writeBytes_as_transaction ft232h (env_const (Done [0; 0])) 0
             [5; 6] bus0 eq_refl).
  reflexivity.
Defined.

Lemma readBytes_outcomes_witness :
  let env := env_const (Done [7; 8]) in
  let cmd :=
    flat_map (legacy_read_frame ft232h 0 3) [0x00; 0xFF] ++ [flush ft232h] in
  length [7; 8] = length [0; 0]
  ∧ readBytes ft232h env torn_nothing 0 [0; 0] bus0
    = Returns ([7; 8], None) (set_h [Write cmd; ReadAll 2] bus0).
Proof.
  intros env cmd. split; [reflexivity|].
  exact (proj2 (readBytes_outcomes ft232h env torn_nothing 0 [0; 0] bus0)
           [7; 8] eq_refl eq_refl eq_refl).
Defined.

Lemma Tx_pin_values_witness :
  distinct_opcodes ft232h
  ∧ ∃ batch ops d1,
      Tx_assemble ft232h 0x50 [0x00] [9; 9] bus0 = Returns (batch, 5) d1
      ∧ decode ft232h batch = Some ops
      ∧ Forall (pins_within [3; 3]) ops.
Proof.
  split; [exact ft232h_distinct|].
  exact (Tx_pin_values ft232h 0x50 [0x00] [9; 9] bus0 ft232h_distinct).
Defined.

Lemma Tx_count_is_shift_ins_witness :
  distinct_opcodes ft232h
  ∧ ∃ batch ops d1,
      Tx_assemble ft232h 0x50 [0x00] [9; 9] bus0 = Returns (batch, 5) d1
      ∧ decode ft232h batch = Some ops
      ∧ count shifts_in ops = 5.
Proof.
  split; [exact ft232h_distinct|].
  exact (Tx_count_is_shift_ins ft232h 0x50 [0x00] [9; 9] bus0
           ft232h_distinct).
Defined.
